(** * Legislative bill monitor (main.py): model and verified properties

    The program fetches a listing page of bills, extracts links to the
    detail pages, classifies the text of each bill into policy sectors by
    keyword search, scores it, summarises it and writes a CSV table.

    Python strings are sequences of Unicode code points: they are modelled
    as lists of code points ([list N]), so that [len], slicing and the
    character budget of the summariser count what Python counts.  Python
    integers are unbounded and modelled as [Z]. *)

From Stdlib Require Import ZArith NArith List Lia String Ascii Bool.
From Stdlib Require DecimalZ.
From Stdlib Require Import DecimalString.
From stdpp Require Import base gmap sets list.
Import ListNotations.

Local Open Scope Z_scope.

(** ** Strings *)

Abbreviation str := (list N).

(** [len] is Python's [len], an integer. *)
Definition len {A : Type} (l : list A) : Z := Z.of_nat (length l).

(** Literals are written as UTF-8 text and decoded to code points. *)
Fixpoint utf8_decode (pending : nat) (acc : N) (bs : list N) : str :=
  match bs with
  | [] => []
  | b :: bs' =>
      if (b <? 128)%N then b :: utf8_decode 0 0%N bs'
      else if (b <? 192)%N then
        let acc' := (acc * 64 + (b - 128))%N in
        match pending with
        | 1%nat => acc' :: utf8_decode 0 0%N bs'
        | S p => utf8_decode p acc' bs'
        | O => utf8_decode 0 0%N bs'
        end
      else if (b <? 224)%N then utf8_decode 1 (b - 192)%N bs'
      else if (b <? 240)%N then utf8_decode 2 (b - 224)%N bs'
      else utf8_decode 3 (b - 240)%N bs'
  end.

Definition u (s : string) : str :=
  utf8_decode 0 0%N (List.map N_of_ascii (list_ascii_of_string s)).

(** [needle in hay] on strings: substring search. *)
Fixpoint starts_with (p s : str) : bool :=
  match p, s with
  | [], _ => true
  | _ :: _, [] => false
  | a :: p', b :: s' => (a =? b)%N && starts_with p' s'
  end.

Fixpoint contains (needle hay : str) : bool :=
  starts_with needle hay
  || match hay with
     | [] => false
     | _ :: hay' => contains needle hay'
     end.

(** [sep.join(l)]. *)
Fixpoint join (sep : str) (l : list str) : str :=
  match l with
  | [] => []
  | [x] => x
  | x :: rest => x ++ sep ++ join sep rest
  end.

(** Whitespace as [str.strip()] and the regex class [\s] see it on [str]:
    the code points for which [str.isspace()] holds. *)
Definition is_space (c : N) : bool :=
  ((9 <=? c) && (c <=? 13) || (28 <=? c) && (c <=? 32)
   || (c =? 133) || (c =? 160) || (c =? 5760)
   || (8192 <=? c) && (c <=? 8202)
   || (c =? 8232) || (c =? 8233) || (c =? 8239) || (c =? 8287)
   || (c =? 12288))%N.

Fixpoint lstrip (s : str) : str :=
  match s with
  | [] => []
  | c :: s' => if is_space c then lstrip s' else s
  end.

Definition rstrip (s : str) : str := rev (lstrip (rev s)).

(** [s.strip()] *)
Definition strip (s : str) : str := rstrip (lstrip s).

(** [s[:n]] for an integer [n]: a negative [n] counts from the end. *)
Definition slice_to {A : Type} (s : list A) (n : Z) : list A :=
  if 0 <=? n then firstn (Z.to_nat n) s
  else firstn (Z.to_nat (len s + n)) s.

(** [s.rsplit(sep, 1)[0]] for a one-character separator: the text before
    the last separator, or all of [s] when it has none. *)
Fixpoint before_last (sep : N) (s : str) : option str :=
  match s with
  | [] => None
  | c :: s' =>
      match before_last sep s' with
      | Some p => Some (c :: p)
      | None => if (c =? sep)%N then Some [] else None
      end
  end.

Definition rsplit1_head (sep : N) (s : str) : str :=
  match before_last sep s with
  | Some p => p
  | None => s
  end.

(** [str(n)] for an integer. *)
Definition str_of_Z (n : Z) : str :=
  List.map N_of_ascii (list_ascii_of_string (NilZero.string_of_int (Z.to_int n))).

(** Order of [sorted] on strings: lexicographic on code points. *)
Fixpoint str_leb (a b : str) : bool :=
  match a, b with
  | [], _ => true
  | _ :: _, [] => false
  | x :: a', y :: b' => (x <? y)%N || ((x =? y)%N && str_leb a' b')
  end.

Fixpoint insert_sorted (x : str) (l : list str) : list str :=
  match l with
  | [] => [x]
  | y :: l' => if str_leb x y then x :: l else y :: insert_sorted x l'
  end.

(** [sorted(l)] on a list of strings. *)
Definition sorted (l : list str) : list str :=
  fold_right insert_sorted [] l.

(** ** What the program takes from its libraries

    Case mapping and case-insensitive regex comparison come from the
    Unicode tables of the Python runtime, URL resolution from
    [urllib.parse.urljoin], and the document tree from BeautifulSoup.
    They are an interface here; the program's own logic is modelled over
    it, and the general theorems hold for every implementation. *)

(** What the program reads off a parsed page. *)
Record Soup := {
  (** [(a['href'], a.get_text(strip=True))] for each [a] of
      [soup.find_all('a', href=True)], in document order *)
  soup_anchors : list (str * str);
  (** [soup.title.get_text(strip=True)] when [soup.title] exists *)
  soup_title : option str;
  (** [soup.find(['h1', 'h2']).get_text(strip=True)] when it exists *)
  soup_heading : option str;
  (** [soup.get_text(separator=' ', strip=True)] *)
  soup_text : str;
  (** [c.get_text(separator=' ', strip=True)] for each [c] of
      [soup.find_all('div')] *)
  soup_divs : list str
}.

Class Runtime := {
  (** [s.lower()] *)
  str_lower : str -> str;
  (** the regex engine's comparison of a pattern character with a text
      character under [re.I] *)
  re_ci_eq : N -> N -> bool;
  (** the regex class [\d] *)
  re_digit : N -> bool;
  (** [urljoin(base, href)] *)
  urljoin : str -> str -> str;
  (** [get_soup(html)] *)
  get_soup : str -> Soup
}.

Section Regex.
Context `{Runtime}.

Fixpoint ci_starts_with (p s : str) : bool :=
  match p, s with
  | [], _ => true
  | _ :: _, [] => false
  | a :: p', b :: s' => re_ci_eq a b && ci_starts_with p' s'
  end.

(** [re.search(r'a1|a2|...', s, re.I)] for literal alternatives: at
    each start position the alternatives are tried in order. *)
Fixpoint re_search_ci (alts : list str) (s : str) : bool :=
  existsb (fun p => ci_starts_with p s) alts
  || match s with
     | [] => false
     | _ :: s' => re_search_ci alts s'
     end.
End Regex.

(** ** Configuration tables *)

Definition agrarian : str := Eval vm_compute in u "agrarian".
Definition social : str := Eval vm_compute in u "social".
Definition corporate : str := Eval vm_compute in u "corporate".
Definition other : str := Eval vm_compute in u "other".

(** A dict whose iteration order the program relies on is an association
    list in insertion order. *)
Definition SECTOR_KEYWORDS : list (str * list str) := Eval vm_compute in
  [ (agrarian,
     List.map u
       [ "земл"; "сільськогосподар"; "фермер"; "підтримк"; "субсид";
         "експорт"; "хліб"; "зерно"; "фітосаніт"; "фітосанитар"; "квот";
         "аграр"; "паї" ]%string);
    (social,
     List.map u
       [ "труд"; "зарплат"; "страхов"; "пенс"; "пенсій"; "праці";
         "охорон"; "соціал"; "внеск"; "штраф"; "відпустк" ]%string);
    (corporate,
     List.map u
       [ "подат"; "валют"; "корпоратив"; "управл"; "m&a"; "злит";
         "придб"; "борг"; "вій"; "ліміт"; "концерн" ]%string) ].

Definition label_agrarian : str := Eval vm_compute in u "Аграрний".
Definition label_social : str := Eval vm_compute in u "Соціальний".
Definition label_corporate : str := Eval vm_compute in u "Корпоративний".
Definition label_other : str := Eval vm_compute in u "Інший".

Definition SECTOR_LABELS : gmap str str :=
  list_to_map
    [ (agrarian, label_agrarian); (social, label_social);
      (corporate, label_corporate); (other, label_other) ].

Definition BASE_PORTAL : str := Eval vm_compute in u "https://itd.rada.gov.ua".
Definition PERIOD_LIST_URL : str :=
  Eval vm_compute in u "https://itd.rada.gov.ua/billInfo/Bills/period".
Definition OUTPUT_CSV : str := Eval vm_compute in u "bills_output.csv".

(** ** Sector classifier *)

(** [found[sector].append(kw)] on the insertion-ordered dict [found].  The
    program only appends under the keys of the table, which [found] has
    from the start, so the lookup never fails. *)
Fixpoint dict_append (found : list (str * list str)) (sector kw : str)
  : list (str * list str) :=
  match found with
  | [] => []
  | (k, lst) :: rest =>
      if decide (k = sector) then (k, lst ++ [kw]) :: rest
      else (k, lst) :: dict_append rest sector kw
  end.

Section Classifier.
Context `{Runtime}.

(** The two nested loops of [analyze_text_for_sectors]. *)
Definition scan_keywords (low sector : str) (kws : list str)
    (found : list (str * list str)) : list (str * list str) :=
  fold_left
    (fun found kw =>
       if contains (str_lower kw) low then dict_append found sector kw
       else found)
    kws found.

Definition scan_sectors (table : list (str * list str)) (low : str)
    (found : list (str * list str)) : list (str * list str) :=
  fold_left (fun found '(sector, kws) => scan_keywords low sector kws found)
    table found.

(** [list(set(lst))]: the distinct elements, in the order in which the
    set happens to enumerate them. *)
Definition list_of_set (lst : list str) : list str :=
  elements (list_to_set lst : gset str).

Definition analyze_text_for_sectors (text : str)
  : list str * gmap str (list str) :=
  let found := List.map (fun '(k, _) => (k, [])) SECTOR_KEYWORDS in
  let low := str_lower text in
  let found := scan_sectors SECTOR_KEYWORDS low found in
  let matched :=
    List.map fst
      (List.filter (fun '(_, lst) => negb (bool_decide (lst = []))) found) in
  (matched, list_to_map (List.map (fun '(s, lst) => (s, list_of_set lst)) found)).

Definition penalty_stems : list str := Eval vm_compute in
  List.map u [ "штраф"; "штрафи"; "санкц" ]%string.

Definition compute_risk_score (matched : list str)
    (keywords_map : gmap str (list str)) (text : str) : Z :=
  let score := 0 in
  let score := score + 2 * len matched in
  let score :=
    fold_left (fun score s => score + len (default [] (keywords_map !! s)))
      matched score in
  let score := if re_search_ci penalty_stems text then score + 3 else score in
  if score >? 10 then 10 else score.
End Classifier.

(** ** Summariser *)

Definition is_terminator (c : N) : bool :=
  ((c =? 46) || (c =? 33) || (c =? 63))%N.

Definition push_char (c : N) (pieces : list str) : list str :=
  match pieces with
  | [] => [[c]]
  | p :: ps => (c :: p) :: ps
  end.

(** [re.split(r'(?<=[.!?])\s+', text)].  A separator is a maximal run of
    whitespace that starts right after a terminator.  [in_sep] says that
    the scan is inside such a run, [after_term] that the previous
    character is a terminator; the head of the result is the piece being
    read. *)
Fixpoint split_scan (in_sep after_term : bool) (s : str) : list str :=
  match s with
  | [] => [[]]
  | c :: s' =>
      if is_space c then
        if in_sep then split_scan true false s'
        else if after_term then [] :: split_scan true false s'
        else push_char c (split_scan false false s')
      else push_char c (split_scan false (is_terminator c) s')
  end.

Definition split_sentences (text : str) : list str :=
  split_scan false false text.

Definition ellipsis : str := Eval vm_compute in u "...".
Definition space : N := 32%N.

Definition summarize_text (text : str) (max_chars : Z) : str :=
  let sentences := split_sentences text in
  let s :=
    if len sentences >=? 2 then join [space] (slice_to sentences 2)
    else match sentences with
         | s0 :: _ => s0
         | [] => []
         end in
  let s := strip s in
  if len s >? max_chars then
    rsplit1_head space (slice_to s max_chars) ++ ellipsis
  else s.


(** ** Bill parser *)

Module ParsedBill.
Record t := mk {
  url : str;
  title : str;
  published_date : str;
  status : str;
  full_text : str
}.
End ParsedBill.

(** One position of the date pattern: [\d] or a literal character. *)
Inductive atom := Digit | Lit (c : N).

Definition date_patterns : list (list atom) :=
  let dot := Lit 46%N in
  let dash := Lit 45%N in
  [ [Digit; Digit; dot; Digit; Digit; dot; Digit; Digit; Digit; Digit];
    [Digit; Digit; Digit; Digit; dash; Digit; Digit; dash; Digit; Digit] ].

Definition status_stems : list str := Eval vm_compute in
  List.map u [ "прийнят"; "прийнято"; "зареєстр" ]%string.

Definition no_title_found : str := Eval vm_compute in u "No title found".
Definition registered_accepted : str := Eval vm_compute in u "registered/accepted".

Section Parser.
Context `{Runtime}.

Definition atom_matches (a : atom) (c : N) : bool :=
  match a with
  | Digit => re_digit c
  | Lit d => (c =? d)%N
  end.

Fixpoint match_atoms (p : list atom) (s : str) : option str :=
  match p, s with
  | [], _ => Some []
  | _ :: _, [] => None
  | a :: p', c :: s' =>
      if atom_matches a c then option_map (cons c) (match_atoms p' s') else None
  end.

Fixpoint first_alternative (alts : list (list atom)) (s : str) : option str :=
  match alts with
  | [] => None
  | p :: alts' =>
      match match_atoms p s with
      | Some m => Some m
      | None => first_alternative alts' s
      end
  end.

(** [re.search(...)] followed by [m.group(0)]: the leftmost match. *)
Fixpoint re_search_atoms (alts : list (list atom)) (s : str) : option str :=
  match first_alternative alts s with
  | Some m => Some m
  | None =>
      match s with
      | [] => None
      | _ :: s' => re_search_atoms alts s'
      end
  end.

(** [x or d] on strings: the empty string is falsy. *)
Definition str_or (x d : str) : str :=
  match x with
  | [] => d
  | _ => x
  end.

Definition parse_bill (html url : str) : ParsedBill.t :=
  let soup := get_soup html in
  let title := default [] (soup_title soup) in
  let title :=
    match title with
    | [] => default [] (soup_heading soup)
    | _ => title
    end in
  let text_blob := soup_text soup in
  let date_text := default [] (re_search_atoms date_patterns text_blob) in
  let status :=
    if re_search_ci status_stems text_blob then registered_accepted else [] in
  let longest :=
    fold_left (fun longest t => if len t >? len longest then t else longest)
      (soup_divs soup) [] in
  let main_text := str_or longest text_blob in
  ParsedBill.mk url (str_or title no_title_found) date_text status
    (slice_to main_text 20000).
End Parser.

(** ** Row builder *)

Module OutputRow.
Record t := mk {
  bill_url : str;
  title : str;
  published_date : str;
  status : str;
  matched_sectors : str;
  sector_main : str;
  keywords_found : str;
  risk_score : Z;
  summary : str
}.
End OutputRow.

Definition semicolon : str := [59%N].

(** [{kw for lst in keywords_map.values() for kw in lst}] *)
Definition all_keywords (keywords_map : gmap str (list str)) : gset str :=
  list_to_set (concat (List.map snd (map_to_list keywords_map))).

Section RowBuilder.
Context `{Runtime}.

Definition build_row (parsed : ParsedBill.t) : OutputRow.t :=
  let '(matched, keywords_map) :=
    analyze_text_for_sectors (ParsedBill.full_text parsed) in
  let risk := compute_risk_score matched keywords_map (ParsedBill.full_text parsed) in
  let summary := summarize_text (ParsedBill.full_text parsed) 300 in
  let sector_main_eng :=
    match matched with
    | s :: _ => s
    | [] => other
    end in
  let sector_main := default label_other (SECTOR_LABELS !! sector_main_eng) in
  OutputRow.mk
    (ParsedBill.url parsed)
    (ParsedBill.title parsed)
    (ParsedBill.published_date parsed)
    (ParsedBill.status parsed)
    (join semicolon (List.map (fun s => default s (SECTOR_LABELS !! s)) matched))
    sector_main
    (join semicolon (sorted (elements (all_keywords keywords_map))))
    risk
    summary.
End RowBuilder.

(** ** Link extractor *)

Definition bill_href_patterns : list str := Eval vm_compute in
  List.map u [ "Bills/Details"; "BillInfo/Details"; "billInfo/Bill" ]%string.
Definition bill_word : str := Eval vm_compute in u "bill".
Definition no_title : str := Eval vm_compute in u "No title".

(** The second loop of [extract_bill_links]: the limit is tested after the
    current link has been handled. *)
Fixpoint uniq_loop (links : list (str * str)) (seen : gset str)
    (uniq : list (str * str)) (limit : Z) : list (str * str) :=
  match links with
  | [] => uniq
  | (t, l) :: rest =>
      let '(seen, uniq) :=
        if decide (l ∈ seen) then (seen, uniq)
        else ({[l]} ∪ seen, uniq ++ [(t, l)]) in
      if len uniq >=? limit then uniq
      else uniq_loop rest seen uniq limit
  end.

Section Links.
Context `{Runtime}.

Definition is_bill_href (href : str) : bool :=
  re_search_ci bill_href_patterns href || contains bill_word (str_lower href).

(** The first loop: the candidate links, in document order. *)
Definition candidate_links (anchors : list (str * str)) : list (str * str) :=
  fold_left
    (fun links '(href, text) =>
       if is_bill_href href
       then links ++ [(str_or text no_title, urljoin BASE_PORTAL href)]
       else links)
    anchors [].

Definition extract_bill_links (html : str) (limit : Z) : list (str * str) :=
  let soup := get_soup html in
  let links := candidate_links (soup_anchors soup) in
  uniq_loop links ∅ [] limit.
End Links.

(** ** CSV writer

    [csv.DictWriter] with the default dialect: comma delimiter, double
    quote as quote character, minimal quoting with doubled quotes, and
    [\r\n] as line terminator. *)

Definition comma : N := 44%N.
Definition dquote : N := 34%N.
Definition cr : N := 13%N.
Definition lf : N := 10%N.

(** The characters that force a field to be quoted. *)
Definition is_special (c : N) : bool :=
  ((c =? comma) || (c =? dquote) || (c =? cr) || (c =? lf))%N.

Definition escape_field (f : str) : str :=
  flat_map (fun c => if (c =? dquote)%N then [dquote; dquote] else [c]) f.

(** [alone] says that the field is the only one of its record: the writer
    then quotes it when it is empty. *)
Definition write_field (alone : bool) (f : str) : str :=
  if existsb is_special f || (alone && bool_decide (f = []))
  then [dquote] ++ escape_field f ++ [dquote]
  else f.

(** [writer.writerow(cells)] *)
Definition write_record (cells : list str) : str :=
  join [comma] (List.map (write_field (bool_decide (length cells = 1%nat))) cells)
  ++ [cr; lf].

Definition fieldnames : list str := Eval vm_compute in
  List.map u
    [ "bill_url"; "title"; "published_date"; "status"; "matched_sectors";
      "sector_main"; "keywords_found"; "risk_score"; "summary" ]%string.

(** [DictWriter.writerow(r)]: the values of [r] in the order of
    [fieldnames], each turned into a string. *)
Definition row_cells (r : OutputRow.t) : list str :=
  [ OutputRow.bill_url r; OutputRow.title r; OutputRow.published_date r;
    OutputRow.status r; OutputRow.matched_sectors r; OutputRow.sector_main r;
    OutputRow.keywords_found r; str_of_Z (OutputRow.risk_score r);
    OutputRow.summary r ].

(** What [save_rows_to_csv] leaves in the file. *)
Definition csv_text (rows : list OutputRow.t) : str :=
  write_record fieldnames ++ concat (List.map (fun r => write_record (row_cells r)) rows).

(** ** CSV reader

    The state machine of a standard reader for the same dialect, as
    [csv.reader] runs it over the characters of a file. *)

Inductive rstate :=
  | StartRecord | StartField | InField | InQuoted | QuoteInQuoted | AfterCR.

Record reader := mkReader {
  r_state : rstate;
  r_field : str;
  r_row : list str
}.

Definition reader_init : reader := mkReader StartRecord [] [].

(** One character: the new state and the record it completes, if any. *)
Definition reader_step (r : reader) (c : N) : reader * option (list str) :=
  let '(mkReader st field row) := r in
  let at_field_start :=
    if (c =? cr)%N then (mkReader AfterCR [] [], Some (row ++ [field]))
    else if (c =? lf)%N then (mkReader StartRecord [] [], Some (row ++ [field]))
    else if (c =? dquote)%N then (mkReader InQuoted field row, None)
    else if (c =? comma)%N then (mkReader StartField [] (row ++ [field]), None)
    else (mkReader InField (field ++ [c]) row, None) in
  let at_record_start :=
    if (c =? cr)%N then (mkReader AfterCR [] [], Some [])
    else if (c =? lf)%N then (mkReader StartRecord [] [], Some [])
    else at_field_start in
  match st with
  | StartRecord => at_record_start
  | AfterCR =>
      if (c =? lf)%N then (mkReader StartRecord [] [], None) else at_record_start
  | StartField => at_field_start
  | InField =>
      if (c =? cr)%N then (mkReader AfterCR [] [], Some (row ++ [field]))
      else if (c =? lf)%N then (mkReader StartRecord [] [], Some (row ++ [field]))
      else if (c =? comma)%N then (mkReader StartField [] (row ++ [field]), None)
      else (mkReader InField (field ++ [c]) row, None)
  | InQuoted =>
      if (c =? dquote)%N then (mkReader QuoteInQuoted field row, None)
      else (mkReader InQuoted (field ++ [c]) row, None)
  | QuoteInQuoted =>
      if (c =? dquote)%N then (mkReader InQuoted (field ++ [c]) row, None)
      else if (c =? comma)%N then (mkReader StartField [] (row ++ [field]), None)
      else if (c =? cr)%N then (mkReader AfterCR [] [], Some (row ++ [field]))
      else if (c =? lf)%N then (mkReader StartRecord [] [], Some (row ++ [field]))
      else (mkReader InField (field ++ [c]) row, None)
  end.

Fixpoint reader_run (r : reader) (s : str) : list (list str) :=
  match s with
  | [] =>
      match r_state r with
      | StartRecord | AfterCR => []
      | _ => [r_row r ++ [r_field r]]
      end
  | c :: s' =>
      let '(r', out) := reader_step r c in
      match out with
      | Some record => record :: reader_run r' s'
      | None => reader_run r' s'
      end
  end.

(** [list(csv.reader(f))] *)
Definition csv_read (contents : str) : list (list str) :=
  reader_run reader_init contents.

(** ** The run: network, console and file system

    A run is a function of the trace of what has happened so far; it
    returns its value and the extended trace.  The network is an oracle
    that answers each GET, given the trace. *)

(** The lines the program prints. *)
Inductive message :=
  | MsgListFetchError (e : str)       (* Помилка завантаження списку законопроектів: {e} *)
  | MsgNoListHtml                     (* Немає HTML зі сторінки періоду — припиняємо. *)
  | MsgFound (n : Z)                  (* Знайдено близько {n} потенційних посилань ... *)
  | MsgProcessing (i n : Z) (title url : str)   (* [{i}/{n}] Обробка: {title} - {url} *)
  | MsgBillFetchError (url e : str)   (* Не вдалось завантажити {url}: {e} *)
  | MsgSector (sector url : str)      (* → Сектор: {sector} | Посилання: {url} *)
  | MsgSaved (n : Z) (output : str)   (* Збережено {n} записів у {output} *)
  | MsgNothingSaved.                  (* Нічого не збережено — rows порожній. *)

Inductive event :=
  | EvGet (url : str)                 (* requests.get(url, headers=HEADERS, timeout=15) *)
  | EvPrint (m : message)
  | EvSleep                           (* time.sleep(0.8) *)
  | EvWrite (path contents : str).    (* the file [path] is created or overwritten *)

(** The outcome of a GET: the body of a successful response, or the
    exception raised by the request or by [raise_for_status]. *)
Inductive response := Ok (text : str) | Failed (e : str).

Class Network := { http_get : list event -> str -> response }.

Definition IO (A : Type) : Type := list event -> A * list event.

Definition io_ret {A : Type} (x : A) : IO A := fun tr => (x, tr).

Definition io_bind {A B : Type} (m : IO A) (k : A -> IO B) : IO B :=
  fun tr => let '(x, tr') := m tr in k x tr'.

Notation "'do' x <- m ; k" := (io_bind m (fun x => k))
  (at level 10, x name, m at level 100, k at level 200).
Notation "m ;;; k" := (io_bind m (fun _ => k))
  (at level 100, k at level 200, right associativity).

Definition emit (e : event) : IO unit := fun tr => (tt, tr ++ [e]).
Definition print (m : message) : IO unit := emit (EvPrint m).

Section Run.
Context `{Runtime} `{Network}.

Definition get (url : str) : IO response :=
  fun tr => (http_get tr url, tr ++ [EvGet url]).

Definition fetch_period_page : IO (option str) :=
  do resp <- get PERIOD_LIST_URL;
  match resp with
  | Ok text => io_ret (Some text)
  | Failed e => print (MsgListFetchError e) ;;; io_ret None
  end.

Definition fetch_bill_page (url : str) : IO (option str) :=
  do resp <- get url;
  match resp with
  | Ok text => io_ret (Some text)
  | Failed e => print (MsgBillFetchError url e) ;;; io_ret None
  end.

Definition save_rows_to_csv (rows : list OutputRow.t) (output : str) : IO unit :=
  emit (EvWrite output (csv_text rows)) ;;;
  print (MsgSaved (len rows) output).

(** The loop of [main] over the links, [i] counting from 1. *)
Fixpoint process_links (links : list (str * str)) (i n : Z)
    (rows : list OutputRow.t) : IO (list OutputRow.t) :=
  match links with
  | [] => io_ret rows
  | (title, url) :: rest =>
      print (MsgProcessing i n title url) ;;;
      do bill_html <- fetch_bill_page url;
      match bill_html with
      | None | Some [] => process_links rest (i + 1) n rows
      | Some html =>
          let parsed := parse_bill html url in
          let row := build_row parsed in
          print (MsgSector (OutputRow.sector_main row) (OutputRow.bill_url row)) ;;;
          emit EvSleep ;;;
          process_links rest (i + 1) n (rows ++ [row])
      end
  end.

(** The end of [main]: what is done with the collected rows. *)
Definition save_stage (rows : list OutputRow.t) : IO unit :=
  match rows with
  | [] => print MsgNothingSaved
  | _ :: _ => save_rows_to_csv (slice_to rows 500) OUTPUT_CSV
  end.

Definition main (limit : Z) : IO unit :=
  do html <- fetch_period_page;
  match html with
  | None | Some [] => print MsgNoListHtml
  | Some html =>
      let links := extract_bill_links html limit in
      print (MsgFound (len links)) ;;;
      do rows <- process_links links 1 (len links) [];
      save_stage rows
  end.
End Run.

(** ** A runtime for running the model on sample inputs

    Lower-casing and case-insensitive comparison by code point for ASCII
    and for the Cyrillic letters of the Ukrainian and Russian alphabets,
    where [str.lower] maps character by character; ASCII digits; URL
    resolution for absolute URLs and for paths against a base without a
    path; and a page whose parse is given. *)

Definition lower_cp (c : N) : N :=
  (if (65 <=? c) && (c <=? 90) then c + 32
   else if (1040 <=? c) && (c <=? 1071) then c + 32
   else if (1024 <=? c) && (c <=? 1039) then c + 80
   else if c =? 1168 then 1169
   else c)%N.

Definition sample_urljoin (base href : str) : str :=
  if starts_with (u "http") href then href
  else if starts_with (u "/") href then base ++ href
  else base ++ u "/" ++ href.

Definition sample_runtime (page : Soup) : Runtime :=
  {| str_lower := List.map lower_cp;
     re_ci_eq := fun p c => (lower_cp p =? lower_cp c)%N;
     re_digit := fun c => ((48 <=? c) && (c <=? 57))%N;
     urljoin := sample_urljoin;
     get_soup := fun _ => page |}.

Definition empty_page : Soup :=
  {| soup_anchors := []; soup_title := None; soup_heading := None;
     soup_text := []; soup_divs := [] |}.

(** ** The risk score as the specification words it *)

Section ScoreSpec.
Context `{Runtime}.



(** One point for each keyword recorded for a matched sector. *)
Definition keyword_points (matched : list str)
    (keywords_map : gmap str (list str)) : Z :=
  foldr Z.add 0 (List.map (fun s => len (default [] (keywords_map !! s))) matched).

End ScoreSpec.

(** ** The scenario of the specification *)

Definition scenario_text : str := Eval vm_compute in
  u "Цей закон стосується землі та субсидій. Це другий рядок.".
Definition kw_land : str := Eval vm_compute in u "земл".
Definition kw_subsidy : str := Eval vm_compute in u "субсид".

(** ** The classification, sector by sector *)

Section Hits.
Context `{Runtime}.

(** The keywords of one sector that occur in the lower-cased text, in the
    order of the table. *)
Definition hits (low : str) (kws : list str) : list str :=
  List.filter (fun kw => contains (str_lower kw) low) kws.

Definition sector_hits (table : list (str * list str)) (low : str)
  : list (str * list str) :=
  List.map (fun '(sector, kws) => (sector, hits low kws)) table.
End Hits.

(** The first entry of a semicolon-separated field. *)
Fixpoint first_entry (s : str) : str :=
  match s with
  | [] => []
  | c :: s' => if (c =? 59)%N then [] else c :: first_entry s'
  end.

(** ** The summariser as the specification words it *)

(** A sentence boundary inside [p]: a terminator directly followed by
    whitespace. *)
Fixpoint has_boundary (p : str) : bool :=
  match p with
  | x :: (y :: _) as p' => (is_terminator x && is_space y) || has_boundary p'
  | _ => false
  end.

Fixpoint ends_with_terminator (p : str) : bool :=
  match p with
  | [] => false
  | [x] => is_terminator x
  | _ :: p' => ends_with_terminator p'
  end.

Definition starts_with_space (s : str) : bool :=
  match s with
  | c :: _ => is_space c
  | [] => false
  end.

(** [sentences text pieces]: [pieces] are the sentences of [text].  The
    text is cut at each terminator that is followed by whitespace, and the
    whole run of whitespace after it is dropped. *)
Inductive sentences : str -> list str -> Prop :=
  | sentences_last (p : str) :
      has_boundary p = false ->
      sentences p [p]
  | sentences_cut (p w rest : str) (pieces : list str) :
      has_boundary p = false ->
      ends_with_terminator p = true ->
      w <> [] ->
      forallb is_space w = true ->
      starts_with_space rest = false ->
      sentences rest pieces ->
      sentences (p ++ w ++ rest) (p :: pieces).

(** The first two sentences joined by one space, the only sentence, or
    nothing. *)
Definition first_two (pieces : list str) : str :=
  match pieces with
  | [] => []
  | [s] => s
  | s1 :: s2 :: _ => s1 ++ [space] ++ s2
  end.

(** [kept] is [t] cut back to its last whole word: all of [t] when [t]
    has no space, else what stands before the last space of [t]. *)
Definition cut_to_word (t kept : str) : Prop :=
  ((space ∉ t) /\ kept = t)
  \/ (exists tail, t = kept ++ space :: tail /\ (space ∉ tail)).

(** [s] is [x] without the whitespace at its two ends. *)
Definition stripped (x s : str) : Prop :=
  exists before after,
    x = before ++ s ++ after
    /\ forallb is_space before = true
    /\ forallb is_space after = true
    /\ starts_with_space s = false
    /\ starts_with_space (rev s) = false.

(** Sample inputs of the summariser. *)
Definition text_leading_space : str := Eval vm_compute in u " Law.".
Definition text_law : str := Eval vm_compute in u "Law.".
Definition text_abcdef : str := Eval vm_compute in u "abcdef".

(** ** The link list as the specification words it *)

(** The links whose URL is not in [seen] and has not occurred earlier in
    the list, in the order of the list: deduplication by URL that keeps
    the first occurrence. *)
Fixpoint first_seen (seen : gset str) (links : list (str * str))
  : list (str * str) :=
  match links with
  | [] => []
  | (t, l) :: rest =>
      if decide (l ∈ seen) then first_seen seen rest
      else (t, l) :: first_seen ({[l]} ∪ seen) rest
  end.

(** A listing page with one link to a bill. *)
Definition one_link_page : Soup :=
  {| soup_anchors := [(u "/billInfo/Bills/Card/1", u "Bill 1")];
     soup_title := None; soup_heading := None;
     soup_text := []; soup_divs := [] |}.

(** ** Reading a row back *)

(** [int(s)] on a decimal numeral. *)
Definition Z_of_str (s : str) : option Z :=
  option_map Z.of_int
    (NilZero.int_of_string (string_of_list_ascii (List.map ascii_of_N s))).

(** The row that nine cells stand for, the score read as an integer. *)
Definition row_of_cells (cells : list str) : option OutputRow.t :=
  match cells with
  | [bill_url; title; published_date; status; matched_sectors; sector_main;
     keywords_found; risk_score; summary] =>
      option_map
        (fun risk =>
           OutputRow.mk bill_url title published_date status matched_sectors
             sector_main keywords_found risk summary)
        (Z_of_str risk_score)
  | _ => None
  end.

(** The reader has just read the field [f] of a record whose earlier
    fields are [row]. *)
Inductive field_read (f : str) (row : list str) : reader -> Prop :=
  | read_plain : field_read f row (mkReader InField f row)
  | read_quoted : field_read f row (mkReader QuoteInQuoted f row)
  | read_empty : f = [] -> field_read f row (mkReader StartField [] row)
  | read_empty_first :
      f = [] -> row = [] -> field_read f row (mkReader StartRecord [] []).

(** A reader at the start of a field, or of a record. *)
Definition fresh (row : list str) (r : reader) : Prop :=
  r = mkReader StartField [] row \/ (row = [] /\ r = mkReader StartRecord [] []).

(** ** A network for running the model on sample inputs *)

(** Every GET succeeds with the same body. *)
Definition sample_network (body : str) : Network :=
  {| http_get := fun _ _ => Ok body |}.

Definition sample_html : str := Eval vm_compute in u "<html></html>".

(** ** Proof automation *)

(** Closes one direction of a case of the classification: the fields are
    closed terms, the hit lists are either empty or a cons. *)
Ltac close_case Hyp :=
  first
    [ reflexivity
    | discriminate Hyp
    | exfalso; apply Hyp; reflexivity
    | repeat constructor; fail
    | repeat match goal with
             | Hf : Forall _ (_ :: _) |- _ => inversion Hf; clear Hf; subst
             end;
      discriminate ].

(** ** Sample inputs *)

Definition text_two_sentences : str := Eval vm_compute in u "One. Two! Three?".
Definition text_trailing_space : str := Eval vm_compute in u "Done. ".
Definition text_long_words : str := Eval vm_compute in u "alpha beta gamma".
Definition cell_with_quote : str := Eval vm_compute in u "a,b".

(** The files a trace writes, in order. *)
Definition file_writes (tr : list event) : list (str * str) :=
  flat_map
    (fun e => match e with
              | EvWrite path contents => [(path, contents)]
              | _ => []
              end)
    tr.

(** ** Further sample inputs *)

(** A listing page with two links to one bill, a link that is no bill
    link, and a bill link without text. *)
Definition listing_page : Soup :=
  {| soup_anchors :=
       [ (u "/billInfo/Bills/Card/1", u "Bill 1");
         (u "/about", u "About");
         (u "/billInfo/Bills/Card/1", u "Again");
         (u "/billInfo/Bills/Card/2", []) ];
     soup_title := None; soup_heading := None;
     soup_text := []; soup_divs := [] |}.

(** ** Dates as the parser's pattern describes them *)

Section DateShape.
Context `{Runtime}.

(** [m] is a date: ten characters, [dd.dd.dddd] or [dddd-dd-dd], each [d]
    a digit of the regex class. *)
Definition is_date (m : str) : Prop :=
  exists p, p ∈ date_patterns /\ Forall2 (fun a c => atom_matches a c = true) p m.
End DateShape.

(** A detail page with a date, a status word and three blocks of text. *)
Definition detail_page : Soup :=
  {| soup_anchors := [];
     soup_title := Some [];
     soup_heading := Some (u "Проект Закону про землю");
     soup_text := u "Проект Закону про землю Зареєстровано 05.11.2024 та 2024-12-01";
     soup_divs := [u "Проект"; []; u "Зареєстровано 05.11.2024"; u "та 2024-12-01 штрафи..."] |}.

(** Texts for the summariser. *)
Definition text_no_terminator : str := Eval vm_compute in u "  Law on land  ".
Definition text_blank : str := Eval vm_compute in u "   ".

(** A parsed bill whose text names land, subsidies and fines. *)
Definition sample_bill : ParsedBill.t :=
  ParsedBill.mk (u "https://itd.rada.gov.ua/b/1") (u "Про землю") (u "05.11.2024")
    registered_accepted
    (u "Закон про землю та субсидії. Штрафи за порушення. Набирає чинності.").

(** ** What a trace shows *)

(** The URLs requested, in order. *)
Definition requests (tr : list event) : list str :=
  flat_map
    (fun e => match e with
              | EvGet url => [url]
              | _ => []
              end)
    tr.

(** The pauses taken. *)
Definition pauses (tr : list event) : nat :=
  length (List.filter (fun e => match e with EvSleep => true | _ => false end) tr).

(** A GET that fails, or answers with an empty body: [main] treats both
    alike. *)
Definition no_page (r : response) : Prop :=
  match r with
  | Ok [] | Failed _ => True
  | Ok (_ :: _) => False
  end.

(** A network on which every request fails. *)
Definition failing_network : Network :=
  {| http_get := fun _ _ => Failed (u "timeout") |}.

(** A network that serves the listing page first and fails afterwards. *)
Definition listing_only_network : Network :=
  {| http_get := fun tr _ =>
       match tr with
       | [] => Ok sample_html
       | _ :: _ => Failed (u "timeout")
       end |}.

Definition sample_row : OutputRow.t :=
  OutputRow.mk (u "https://itd.rada.gov.ua/b/1") (u "Zemlia " ++ [dquote; comma; dquote] ++ u " lis") []
    [] (u "Аграрний") (u "Аграрний") (u "земл") 3 [10%N; 13%N].

(** ** Order of the keywords field *)

(** Consecutive entries are in the order of [sorted]. *)
Fixpoint ordered (l : list str) : Prop :=
  match l with
  | x :: (y :: _) as l' => str_leb x y = true /\ ordered l'
  | _ => True
  end.

(** * Properties *)

(** ** Risk score *)

Lemma len_nonneg {A : Type} (l : list A) : 0 <= len l.
Proof. unfold len. lia. Qed.

Lemma fold_left_plus {A : Type} (f : A -> Z) (l : list A) (a : Z) :
  fold_left (fun acc x => acc + f x) l a = a + foldr Z.add 0 (List.map f l).
Proof.
  revert a. induction l as [|x l IH]; intros a; simpl.
  - lia.
  - rewrite IH. lia.
Qed.

Section ScoreProofs.
Context `{Runtime}.


Lemma keyword_points_nonneg (matched : list str) (kw : gmap str (list str)) :
  0 <= keyword_points matched kw.
Proof.
  unfold keyword_points. induction matched as [|s l IH]; simpl; [lia|].
  pose proof (len_nonneg (default [] (kw !! s))). lia.
Qed.


(** C2: the score is an integer between 0 and 10, both included. *)
Theorem compute_risk_score_range (matched : list str)
    (keywords_map : gmap str (list str)) (text : str) :
  0 <= compute_risk_score matched keywords_map text <= 10.
Proof.
  unfold compute_risk_score. rewrite fold_left_plus.
  pose proof (len_nonneg matched).
  pose proof (keyword_points_nonneg matched keywords_map) as Hk.
  unfold keyword_points in Hk.
  set (base := 0 + 2 * len matched + _) in *.
  destruct (re_search_ci penalty_stems text).
  - destruct (base + 3 >? 10) eqn:E; lia.
  - destruct (base >? 10) eqn:E; lia.
Qed.
End ScoreProofs.

(** ** The classifier on the scenario text *)

(** C4: on the text "Цей закон стосується землі та субсидій. Це другий
    рядок." the matched sectors include agrarian, the keywords земл and
    субсид are both recorded for it, and the score of that classification
    is at least 4. *)
Theorem scenario_land_subsidies :
  let R := sample_runtime empty_page in
  let '(matched, keywords_map) := analyze_text_for_sectors scenario_text in
  agrarian ∈ matched
  /\ kw_land ∈ default [] (keywords_map !! agrarian)
  /\ kw_subsidy ∈ default [] (keywords_map !! agrarian)
  /\ 4 <= compute_risk_score matched keywords_map scenario_text.
Proof.
  vm_compute. repeat split; try (intros ?; discriminate); repeat constructor.
Qed.

(** ** Sector classifier *)

Lemma dict_append_at (A B : list (str * list str)) (sector kw : str)
    (acc : list str) :
  sector ∉ List.map fst A ->
  dict_append (A ++ (sector, acc) :: B) sector kw
  = A ++ (sector, acc ++ [kw]) :: B.
Proof.
  induction A as [|[k l] A IH]; intros Hfresh; simpl.
  - now rewrite decide_True.
  - simpl in Hfresh. rewrite decide_False.
    + rewrite IH; [reflexivity|]. intros Hin. apply Hfresh. now right.
    + intros ->. apply Hfresh. now left.
Qed.

Lemma sector_keys_nodup : NoDup (List.map fst SECTOR_KEYWORDS).
Proof. apply (bool_decide_unpack _). vm_compute. exact I. Qed.

Section ClassifierProofs.
Context `{Runtime}.

Lemma keys_of_sector_sets (table : list (str * list str)) (low : str) :
  List.map fst
    (List.map (fun '(s, lst) => (s, list_of_set lst)) (sector_hits table low))
  = List.map fst table.
Proof.
  induction table as [|[s kws] table IH]; simpl; [reflexivity|].
  now rewrite IH.
Qed.

Lemma scan_keywords_at (low sector : str) (kws : list str)
    (A B : list (str * list str)) (acc : list str) :
  sector ∉ List.map fst A ->
  scan_keywords low sector kws (A ++ (sector, acc) :: B)
  = A ++ (sector, acc ++ hits low kws) :: B.
Proof.
  intros Hfresh. unfold scan_keywords, hits.
  revert acc. induction kws as [|kw kws IH]; intros acc; simpl.
  - now rewrite app_nil_r.
  - destruct (contains (str_lower kw) low).
    + rewrite dict_append_at by assumption. rewrite IH.
      now rewrite <- app_assoc.
    + apply IH.
Qed.

Lemma scan_sectors_hits (table done : list (str * list str)) (low : str) :
  NoDup (List.map fst done ++ List.map fst table) ->
  scan_sectors table low (done ++ List.map (fun '(k, _) => (k, [])) table)
  = done ++ sector_hits table low.
Proof.
  revert done. induction table as [|[sector kws] table IH]; intros done Hnd.
  - reflexivity.
  - cbn [scan_sectors fold_left List.map sector_hits].
    rewrite scan_keywords_at.
    + specialize (IH (done ++ [(sector, hits low kws)])).
      rewrite <- !app_assoc in IH. apply IH.
      rewrite map_app, <- app_assoc. exact Hnd.
    + simpl in Hnd. apply NoDup_app in Hnd as (_ & Hdisj & _).
      intros Hin. apply (Hdisj sector Hin). now left.
Qed.

Lemma found_is_sector_hits (low : str) :
  scan_sectors SECTOR_KEYWORDS low
    (List.map (fun '(k, _) => (k, [])) SECTOR_KEYWORDS)
  = sector_hits SECTOR_KEYWORDS low.
Proof.
  apply (scan_sectors_hits SECTOR_KEYWORDS [] low).
  apply sector_keys_nodup.
Qed.
End ClassifierProofs.

Lemma insert_sorted_perm (x : str) (l : list str) :
  insert_sorted x l ≡ₚ x :: l.
Proof.
  induction l as [|y l IH]; simpl; [reflexivity|].
  destruct (str_leb x y); [reflexivity|].
  rewrite IH. apply Permutation_swap.
Qed.

Lemma sorted_perm (l : list str) : sorted l ≡ₚ l.
Proof.
  induction l as [|x l IH]; simpl; [reflexivity|].
  unfold sorted in *. simpl. rewrite insert_sorted_perm. now rewrite IH.
Qed.

Lemma join_nil_inv (sep : str) (l : list str) :
  Forall (fun x => x <> []) l -> join sep l = [] -> l = [].
Proof.
  destruct l as [|x [|y l]]; intros Hne Hj; [reflexivity| |].
  - simpl in Hj. inversion Hne; subst. contradiction.
  - cbn [join] in Hj. apply app_eq_nil in Hj as [-> _].
    inversion Hne; subst. contradiction.
Qed.

Lemma elem_of_all_keywords_list (l : list (str * list str)) (x : str) :
  NoDup (List.map fst l) ->
  x ∈ all_keywords (list_to_map l) <-> exists k lst, (k, lst) ∈ l /\ x ∈ lst.
Proof.
  intros Hnd. unfold all_keywords. rewrite elem_of_list_to_set.
  rewrite list_elem_of_In, in_concat. split.
  - intros (lst & Hin & Hx). apply in_map_iff in Hin as ([k lst'] & <- & Hk).
    exists k, lst'. split; [|now apply list_elem_of_In].
    apply list_elem_of_In, elem_of_map_to_list in Hk.
    now apply elem_of_list_to_map in Hk.
  - intros (k & lst & Hk & Hx). exists lst. split; [|now apply list_elem_of_In].
    apply in_map_iff. exists (k, lst). split; [reflexivity|].
    apply list_elem_of_In, elem_of_map_to_list.
    now apply elem_of_list_to_map.
Qed.

Lemma table_keywords_nonempty :
  Forall (fun '(_, kws) => Forall (fun kw : str => kw <> []) kws) SECTOR_KEYWORDS.
Proof. repeat constructor; discriminate. Qed.

Section RowProofs.
Context `{Runtime}.

Lemma analyze_text_for_sectors_hits (text : str) :
  analyze_text_for_sectors text
  = let found := sector_hits SECTOR_KEYWORDS (str_lower text) in
    (List.map fst
       (List.filter (fun '(_, lst) => negb (bool_decide (lst = []))) found),
     list_to_map (List.map (fun '(s, lst) => (s, list_of_set lst)) found)).
Proof.
  unfold analyze_text_for_sectors. now rewrite found_is_sector_hits.
Qed.

Lemma hits_nonempty (low : str) (kws : list str) (x : str) :
  Forall (fun kw : str => kw <> []) kws -> x ∈ hits low kws -> x <> [].
Proof.
  intros Hall Hx. unfold hits in Hx.
  apply list_elem_of_In, filter_In in Hx as [Hx _].
  rewrite Forall_forall in Hall. apply Hall. now apply list_elem_of_In.
Qed.

Lemma elem_of_list_of_set (lst : list str) (x : str) :
  x ∈ list_of_set lst <-> x ∈ lst.
Proof. unfold list_of_set. now rewrite elem_of_elements, elem_of_list_to_set. Qed.

(** The keywords field is empty exactly when no keyword of any sector
    occurs in the text. *)
Lemma keywords_field_empty (low : str) :
  join semicolon
    (sorted (elements (all_keywords
       (list_to_map
          (List.map (fun '(s, lst) => (s, list_of_set lst))
             (sector_hits SECTOR_KEYWORDS low))))))
  = []
  <-> Forall (fun '(_, lst) => lst = []) (sector_hits SECTOR_KEYWORDS low).
Proof.
  set (found := sector_hits SECTOR_KEYWORDS low).
  set (m := list_to_map _).
  assert (Hmem : forall x, x ∈ all_keywords m
                 <-> exists k lst, (k, lst) ∈ found /\ x ∈ lst).
  { intros x. subst m. rewrite elem_of_all_keywords_list.
    - split.
      + intros (k & lst & Hk & Hx).
        apply list_elem_of_In, in_map_iff in Hk as ([k' lst'] & Heq & Hk').
        injection Heq as <- <-. exists k', lst'. split.
        * now apply list_elem_of_In.
        * now apply elem_of_list_of_set.
      + intros (k & lst & Hk & Hx). exists k, (list_of_set lst). split.
        * apply list_elem_of_In, in_map_iff. exists (k, lst).
          split; [reflexivity|now apply list_elem_of_In].
        * now apply elem_of_list_of_set.
    - subst found. rewrite keys_of_sector_sets. apply sector_keys_nodup. }
  split.
  - intros Hj. apply join_nil_inv in Hj.
    + assert (Hempty : elements (all_keywords m) = []).
      { apply Permutation_nil_r. rewrite <- Hj. symmetry. apply sorted_perm. }
      apply elements_empty_inv in Hempty.
      apply Forall_forall. intros [k lst] Hk.
      destruct lst as [|x lst]; [reflexivity|]. exfalso.
      assert (Hx : x ∈ all_keywords m).
      { apply Hmem. exists k, (x :: lst). split; [exact Hk|left]. }
      apply Hempty in Hx. now apply not_elem_of_empty in Hx.
    + apply Forall_forall. intros x Hx.
      rewrite sorted_perm in Hx. apply elem_of_elements, Hmem in Hx.
      destruct Hx as (k & lst & Hk & Hx). subst found. unfold sector_hits in Hk.
      apply list_elem_of_In, in_map_iff in Hk as ([k' kws] & Heq & Hk').
      injection Heq as <- <-.
      pose proof table_keywords_nonempty as Hall.
      rewrite List.Forall_forall in Hall. specialize (Hall _ Hk').
      simpl in Hall. exact (hits_nonempty _ _ _ Hall Hx).
  - intros Hall.
    assert (Hempty : all_keywords m = ∅).
    { apply set_eq. intros x. rewrite Hmem.
      split; [|intros Hx; now apply not_elem_of_empty in Hx].
      intros (k & lst & Hk & Hx). rewrite Forall_forall in Hall.
      specialize (Hall _ Hk). simpl in Hall.
      subst lst. inversion Hx. }
    rewrite Hempty, elements_empty. reflexivity.
Qed.

(** C10: in the row built for a bill, the matched-sectors field is empty
    exactly when the main sector is the label Інший, exactly when the
    keywords field is empty; and when the matched-sectors field is not
    empty, the main sector is its first entry. *)
Theorem build_row_classification_consistent (parsed : ParsedBill.t) :
  let row := build_row parsed in
  (OutputRow.matched_sectors row = [] <-> OutputRow.sector_main row = label_other)
  /\ (OutputRow.sector_main row = label_other <-> OutputRow.keywords_found row = [])
  /\ (OutputRow.matched_sectors row <> [] ->
      OutputRow.sector_main row = first_entry (OutputRow.matched_sectors row)).
Proof.
  unfold build_row. rewrite analyze_text_for_sectors_hits.
  cbn zeta. cbn [OutputRow.matched_sectors OutputRow.sector_main OutputRow.keywords_found].
  rewrite keywords_field_empty.
  set (low := str_lower _). unfold sector_hits, SECTOR_KEYWORDS. cbn [List.map].
  repeat match goal with
         | |- context [hits low ?kws] => generalize (hits low kws)
         end.
  clear low. intros fc fs fa.
  destruct fa as [|a fa], fs as [|s fs], fc as [|c fc]; vm_compute;
    repeat split; intros Hyp; close_case Hyp.
Qed.
End RowProofs.

(** ** Summariser *)

Lemma space_not_terminator (c : N) : is_space c = true -> is_terminator c = false.
Proof.
  unfold is_space, is_terminator. intros Hs.
  destruct (N.eqb_spec c 46) as [->|]; [discriminate Hs|].
  destruct (N.eqb_spec c 33) as [->|]; [discriminate Hs|].
  destruct (N.eqb_spec c 63) as [->|]; [discriminate Hs|].
  reflexivity.
Qed.

Lemma ends_with_terminator_snoc (p : str) (c : N) :
  ends_with_terminator (p ++ [c]) = is_terminator c.
Proof.
  induction p as [|x p IH]; [reflexivity|].
  simpl. destruct (p ++ [c]) eqn:E.
  - destruct p; discriminate E.
  - exact IH.
Qed.

Lemma has_boundary_snoc (p : str) (c : N) :
  has_boundary (p ++ [c])
  = has_boundary p || (ends_with_terminator p && is_space c).
Proof.
  induction p as [|x p IH]; [reflexivity|].
  destruct p as [|y p].
  - simpl. now rewrite !orb_false_r.
  - change (has_boundary ((x :: y :: p) ++ [c]))
      with ((is_terminator x && is_space y) || has_boundary ((y :: p) ++ [c])).
    rewrite IH.
    change (has_boundary (x :: y :: p))
      with ((is_terminator x && is_space y) || has_boundary (y :: p)).
    change (ends_with_terminator (x :: y :: p)) with (ends_with_terminator (y :: p)).
    now rewrite orb_assoc.
Qed.

Lemma split_scan_nonempty (in_sep after_term : bool) (s : str) :
  split_scan in_sep after_term s <> [].
Proof.
  revert in_sep after_term. induction s as [|c s IH]; intros in_sep after_term.
  - discriminate.
  - simpl. destruct (is_space c), in_sep, after_term; try discriminate;
      try apply IH;
      (destruct (split_scan _ _ s) eqn:E; [now apply IH in E|discriminate]).
Qed.

(** The scan, from a state outside a separator and from a state inside
    one.  [pre] is the part of the current sentence already read. *)
Lemma split_scan_sentences (s : str) :
  (forall (pre : str) (after_term : bool),
      has_boundary pre = false ->
      ends_with_terminator pre = after_term ->
      exists p pieces,
        split_scan false after_term s = p :: pieces
        /\ sentences (pre ++ s) ((pre ++ p) :: pieces))
  /\ (exists w rest,
        s = w ++ rest
        /\ forallb is_space w = true
        /\ starts_with_space rest = false
        /\ sentences rest (split_scan true false s)).
Proof.
  induction s as [|c s [IHout IHin]].
  - split.
    + intros pre after_term Hb _. exists [], []. split; [reflexivity|].
      rewrite !app_nil_r. now constructor.
    + exists [], []. repeat split. now constructor.
  - split.
    + intros pre after_term Hb Ht. simpl.
      destruct (is_space c) eqn:Hc.
      * destruct after_term.
        -- destruct IHin as (w & rest & -> & Hw & Hrest & Hsent).
           eexists [], _. split; [reflexivity|].
           rewrite app_nil_r.
           change (pre ++ c :: w ++ rest) with (pre ++ (c :: w) ++ rest).
           constructor; try assumption; [discriminate|].
           simpl. now rewrite Hc.
        -- destruct (IHout (pre ++ [c]) false) as (p & pieces & Heq & Hsent).
           { rewrite has_boundary_snoc, Hb, Ht. reflexivity. }
           { rewrite ends_with_terminator_snoc. now apply space_not_terminator. }
           rewrite Heq. exists (c :: p), pieces. split; [reflexivity|].
           rewrite <- !app_assoc in Hsent. exact Hsent.
      * destruct (IHout (pre ++ [c]) (is_terminator c)) as (p & pieces & Heq & Hsent).
        { rewrite has_boundary_snoc, Hb, Hc, andb_false_r. reflexivity. }
        { apply ends_with_terminator_snoc. }
        rewrite Heq. exists (c :: p), pieces. split; [reflexivity|].
        rewrite <- !app_assoc in Hsent. exact Hsent.
    + simpl. destruct (is_space c) eqn:Hc.
      * destruct IHin as (w & rest & -> & Hw & Hrest & Hsent).
        exists (c :: w), rest. repeat split; try assumption.
        simpl. now rewrite Hc.
      * destruct (IHout [c] (is_terminator c)) as (p & pieces & Heq & Hsent);
          [reflexivity|reflexivity|].
        exists [], (c :: s). repeat split.
        -- simpl. exact Hc.
        -- rewrite Heq. exact Hsent.
Qed.

Lemma split_sentences_spec (text : str) : sentences text (split_sentences text).
Proof.
  destruct (split_scan_sentences text) as [Hout _].
  destruct (Hout [] false) as (p & pieces & Heq & Hsent); try reflexivity.
  unfold split_sentences. rewrite Heq. exact Hsent.
Qed.

Lemma before_last_spec (t : str) :
  match before_last space t with
  | Some kept => exists tail, t = kept ++ space :: tail /\ (space ∉ tail)
  | None => space ∉ t
  end.
Proof.
  induction t as [|c t IH]; simpl.
  - apply not_elem_of_nil.
  - destruct (before_last space t) as [kept|].
    + destruct IH as (tail & -> & Htail). now exists tail.
    + destruct (N.eqb_spec c space) as [->|Hne].
      * now exists t.
      * intros Hin. apply elem_of_cons in Hin as [Heq|Hin]; [|contradiction].
        now apply Hne.
Qed.

Lemma rsplit1_head_cut (t : str) : cut_to_word t (rsplit1_head space t).
Proof.
  unfold cut_to_word, rsplit1_head. pose proof (before_last_spec t) as Hs.
  destruct (before_last space t); [now right|now left].
Qed.

Lemma rsplit1_head_length (t : str) :
  (length (rsplit1_head space t) <= length t)%nat.
Proof.
  destruct (rsplit1_head_cut t) as [[_ ->]|(tail & Heq & _)]; [lia|].
  rewrite Heq at 2. rewrite length_app. lia.
Qed.

Lemma lstrip_spec (x : str) :
  exists before,
    x = before ++ lstrip x
    /\ forallb is_space before = true
    /\ starts_with_space (lstrip x) = false.
Proof.
  induction x as [|c x (before & Heq & Hb & Hs)]; simpl.
  - now exists [].
  - destruct (is_space c) eqn:Hc.
    + exists (c :: before). simpl. rewrite Hc, Hb. repeat split; [|assumption].
      now rewrite <- Heq.
    + exists []. simpl. now rewrite Hc.
Qed.

Lemma lstrip_keeps_end (x : str) :
  starts_with_space (rev x) = false -> starts_with_space (rev (lstrip x)) = false.
Proof.
  induction x as [|c x IH]; simpl; [easy|].
  intros Hend. destruct (is_space c) eqn:Hc; [|exact Hend].
  apply IH. destruct (rev x) as [|y r] eqn:E; [reflexivity|].
  simpl in Hend. exact Hend.
Qed.

Lemma forallb_rev {A : Type} (f : A -> bool) (l : list A) :
  forallb f (rev l) = forallb f l.
Proof.
  induction l as [|x l IH]; [reflexivity|].
  simpl. rewrite forallb_app, IH. simpl.
  now rewrite andb_true_r, andb_comm.
Qed.

Lemma strip_spec (x : str) : stripped x (strip x).
Proof.
  unfold stripped, strip, rstrip.
  destruct (lstrip_spec x) as (before & Hx & Hb & Hs).
  destruct (lstrip_spec (rev (lstrip x))) as (after & Hr & Ha & Hs').
  exists before, (rev after).
  assert (Hmid : lstrip x = rev (lstrip (rev (lstrip x))) ++ rev after).
  { rewrite <- rev_app_distr, <- Hr. now rewrite rev_involutive. }
  repeat split.
  - rewrite <- Hmid. exact Hx.
  - exact Hb.
  - rewrite forallb_rev. exact Ha.
  - rewrite Hmid in Hs.
    destruct (rev (lstrip (rev (lstrip x)))) as [|c r] eqn:E; [reflexivity|].
    exact Hs.
  - rewrite rev_involutive. exact Hs'.
Qed.

Lemma first_two_select (pieces : list str) :
  (if len pieces >=? 2 then join [space] (slice_to pieces 2)
   else match pieces with
        | s0 :: _ => s0
        | [] => []
        end)
  = first_two pieces.
Proof.
  destruct pieces as [|s1 [|s2 pieces]]; try reflexivity.
  unfold len. cbn [length].
  destruct (Z.geb_spec (Z.of_nat (S (S (length pieces)))) 2); [reflexivity|lia].
Qed.

(** The summary in terms of the text selected from the sentences. *)
Lemma summarize_text_unfold (text : str) (max_chars : Z) :
  summarize_text text max_chars
  = let s := strip (first_two (split_sentences text)) in
    if len s >? max_chars
    then rsplit1_head space (slice_to s max_chars) ++ ellipsis
    else s.
Proof. unfold summarize_text. now rewrite first_two_select. Qed.

Lemma slice_to_nonneg {A : Type} (s : list A) (n : Z) :
  0 <= n -> slice_to s n = firstn (Z.to_nat n) s.
Proof. intros Hn. unfold slice_to. destruct (0 <=? n) eqn:E; [reflexivity|lia]. Qed.

(** C5 (as stated, refuted): the text " Law." has one sentence and fits
    the budget of 300, yet the summary is "Law.", not the sentence itself:
    the selected text is stripped before it is returned. *)
Lemma summarize_text_strips_selection :
  split_sentences text_leading_space = [text_leading_space]
  /\ len text_leading_space <= 300
  /\ summarize_text text_leading_space 300 = text_law
  /\ text_law <> text_leading_space.
Proof.
  repeat split; try reflexivity; try discriminate.
Qed.

(** C5 (amended): the text is split into sentences at each terminator
    followed by whitespace; the first two sentences joined by a space (or
    the only sentence, or nothing) are selected and stripped of the
    whitespace at both ends; the stripped text is returned when it fits
    the budget; otherwise it is cut by the slice [[:max_chars]] (its first
    [max_chars] characters for a budget that is not negative), cut back to
    the last whole word, and the ellipsis is appended. *)
Theorem summarize_text_spec (text : str) (max_chars : Z) :
  let pieces := split_sentences text in
  let chosen := strip (first_two pieces) in
  sentences text pieces
  /\ stripped (first_two pieces) chosen
  /\ (len chosen <= max_chars -> summarize_text text max_chars = chosen)
  /\ (max_chars < len chosen ->
      exists kept,
        summarize_text text max_chars = kept ++ ellipsis
        /\ cut_to_word (slice_to chosen max_chars) kept)
  /\ (0 <= max_chars ->
      slice_to chosen max_chars = firstn (Z.to_nat max_chars) chosen).
Proof.
  intros pieces chosen. rewrite summarize_text_unfold. fold pieces chosen.
  cbn zeta. repeat split.
  - apply split_sentences_spec.
  - apply strip_spec.
  - intros Hfit. destruct (Z.gtb_spec (len chosen) max_chars); [lia|reflexivity].
  - intros Hover. destruct (Z.gtb_spec (len chosen) max_chars); [|lia].
    eexists. split; [reflexivity|]. apply rsplit1_head_cut.
  - apply slice_to_nonneg.
Qed.

(** C9 (as stated, refuted): with the budget -1 the text "abcdef" gives
    "abcde...", eight characters, more than -1 + 3. *)
Lemma summarize_text_negative_budget :
  summarize_text text_abcdef (-1) = [97; 98; 99; 100; 101; 46; 46; 46]%N
  /\ (len (summarize_text text_abcdef (-1)) <=? -1 + 3) = false.
Proof. split; reflexivity. Qed.

(** C9 (amended): for a budget that is not negative the summary has at
    most [max_chars + 3] characters; a summary that was not truncated has
    at most [max_chars], and a truncated one is at most [max_chars]
    characters followed by the ellipsis. *)
Theorem summarize_text_length (text : str) (max_chars : Z) :
  0 <= max_chars ->
  let chosen := strip (first_two (split_sentences text)) in
  len (summarize_text text max_chars) <= max_chars + 3
  /\ (len chosen <= max_chars ->
      summarize_text text max_chars = chosen
      /\ len (summarize_text text max_chars) <= max_chars)
  /\ (max_chars < len chosen ->
      exists kept,
        summarize_text text max_chars = kept ++ ellipsis
        /\ len kept <= max_chars).
Proof.
  intros Hmax chosen. rewrite summarize_text_unfold. fold chosen. cbn zeta.
  assert (Hkept : len (rsplit1_head space (slice_to chosen max_chars)) <= max_chars).
  { pose proof (rsplit1_head_length (slice_to chosen max_chars)) as Hle.
    rewrite slice_to_nonneg in * by assumption.
    rewrite length_firstn in Hle. unfold len. lia. }
  destruct (Z.gtb_spec (len chosen) max_chars) as [Hover|Hfit].
  - split; [|split].
    + unfold len in *. rewrite length_app. simpl. lia.
    + intros Hfit. lia.
    + intros _. eexists. split; [reflexivity|exact Hkept].
  - split; [lia|split].
    + intros _. split; [reflexivity|lia].
    + intros Hover. lia.
Qed.

Lemma summarize_text_length_witness :
  0 <= 2 /\ len (summarize_text text_abcdef 2) <= 2 + 3.
Proof.
  split; [lia|]. apply (summarize_text_length text_abcdef 2). lia.
Defined.

(** ** Link extractor *)

Lemma first_seen_fresh (seen : gset str) (links : list (str * str)) (x : str * str) :
  x ∈ first_seen seen links -> (x.2 ∉ seen) /\ x ∈ links.
Proof.
  revert seen. induction links as [|[t l] links IH]; intros seen Hin; simpl in Hin.
  - now apply elem_of_nil in Hin.
  - destruct (decide (l ∈ seen)) as [Hl|Hl].
    + apply IH in Hin as [Hx Hin]. split; [exact Hx|now right].
    + apply elem_of_cons in Hin as [->|Hin].
      * split; [exact Hl|now left].
      * apply IH in Hin as [Hx Hin]. split; [|now right].
        intros Hs. apply Hx. apply elem_of_union. now right.
Qed.

Lemma first_seen_nodup (seen : gset str) (links : list (str * str)) :
  NoDup (List.map snd (first_seen seen links)).
Proof.
  revert seen. induction links as [|[t l] links IH]; intros seen; simpl.
  - constructor.
  - destruct (decide (l ∈ seen)); [apply IH|].
    simpl. constructor; [|apply IH].
    intros Hin. apply list_elem_of_In, in_map_iff in Hin as (x & Hx & Hin).
    apply list_elem_of_In, first_seen_fresh in Hin as [Hfresh _].
    apply Hfresh. rewrite Hx. apply elem_of_union. left. now apply elem_of_singleton.
Qed.

Lemma first_seen_sublist (seen : gset str) (links : list (str * str)) :
  sublist (first_seen seen links) links.
Proof.
  revert seen. induction links as [|[t l] links IH]; intros seen; simpl.
  - constructor.
  - destruct (decide (l ∈ seen)).
    + apply sublist_cons. apply IH.
    + apply sublist_skip. apply IH.
Qed.


(** The loop returns what it had, extended by the first links not seen
    yet, up to the limit. *)
Lemma uniq_loop_take (links : list (str * str)) (seen : gset str)
    (uniq : list (str * str)) (limit : Z) :
  len uniq < limit ->
  uniq_loop links seen uniq limit
  = uniq ++ firstn (Z.to_nat (limit - len uniq)) (first_seen seen links).
Proof.
  revert seen uniq. induction links as [|[t l] links IH]; intros seen uniq Hlt.
  - simpl. now rewrite firstn_nil, app_nil_r.
  - simpl. destruct (decide (l ∈ seen)) as [Hl|Hl].
    + destruct (Z.geb_spec (len uniq) limit); [lia|]. now apply IH.
    + assert (Hlen : len (uniq ++ [(t, l)]) = len uniq + 1).
      { unfold len. rewrite length_app. simpl. lia. }
      destruct (Z.geb_spec (len (uniq ++ [(t, l)])) limit) as [Hfull|Hroom].
      * replace (Z.to_nat (limit - len uniq)) with 1%nat by lia. reflexivity.
      * rewrite IH by lia. rewrite Hlen, <- app_assoc. simpl.
        replace (Z.to_nat (limit - len uniq)) with (S (Z.to_nat (limit - (len uniq + 1)))) by lia.
        reflexivity.
Qed.

(** With a limit below 1 the loop stops after its first round, which
    always keeps the first link. *)
Lemma uniq_loop_low_limit (links : list (str * str)) (limit : Z) :
  limit <= 0 -> uniq_loop links ∅ [] limit = firstn 1 links.
Proof.
  intros Hlow. destruct links as [|[t l] links]; [reflexivity|].
  simpl. rewrite decide_False by apply not_elem_of_empty.
  simpl. destruct (Z.geb_spec (len [(t, l)]) limit) as [_|Hlt]; [reflexivity|].
  unfold len in Hlt. simpl in Hlt. lia.
Qed.

Section LinkProofs.
Context `{Runtime}.

(** For a limit of at least 1, the extractor returns the first [limit]
    links of the page in first-seen order of their URLs: at most [limit]
    entries, no URL twice, in the order of the page. *)
Lemma extract_bill_links_first_seen (html : str) (limit : Z) :
  1 <= limit ->
  let links := candidate_links (soup_anchors (get_soup html)) in
  let result := extract_bill_links html limit in
  result = firstn (Z.to_nat limit) (first_seen ∅ links)
  /\ len result <= limit
  /\ NoDup (List.map snd result)
  /\ sublist result links.
Proof.
  intros Hlimit links result.
  assert (Heq : result = firstn (Z.to_nat limit) (first_seen ∅ links)).
  { unfold result, extract_bill_links. fold links.
    rewrite uniq_loop_take by (unfold len; simpl; lia).
    simpl. f_equal. unfold len. simpl. lia. }
  split; [exact Heq|]. rewrite Heq. repeat split.
  - unfold len. rewrite length_firstn. lia.
  - rewrite <- firstn_map.
    eapply sublist_NoDup; [apply first_seen_nodup|apply sublist_take].
  - etransitivity; [apply sublist_take|apply first_seen_sublist].
Qed.

(** Whatever the limit, no URL occurs twice and the order is that of the
    page. *)
Lemma extract_bill_links_nodup (html : str) (limit : Z) :
  let links := candidate_links (soup_anchors (get_soup html)) in
  let result := extract_bill_links html limit in
  NoDup (List.map snd result) /\ sublist result links.
Proof.
  intros links result. destruct (Z.le_gt_cases 1 limit) as [Hl|Hl].
  - now destruct (extract_bill_links_first_seen html limit Hl) as (_ & _ & Hn & Hs).
  - unfold result, extract_bill_links. fold links.
    rewrite uniq_loop_low_limit by lia. split.
    + destruct links as [|[t l] links']; simpl; repeat constructor.
      apply not_elem_of_nil.
    + apply sublist_take.
Qed.
End LinkProofs.

(** C3 (the code departs from it): with the limit 0 and a page that has
    one link to a bill, the extractor returns that link: one entry, more
    than the limit. *)
Theorem extract_bill_links_limit_zero :
  let R := sample_runtime one_link_page in
  extract_bill_links [] 0
  = [(u "Bill 1", u "https://itd.rada.gov.ua/billInfo/Bills/Card/1")]
  /\ (len (extract_bill_links [] 0) <=? 0) = false.
Proof. split; vm_compute; reflexivity. Qed.

(** ** CSV writer and reader *)

Lemma not_special (c : N) :
  is_special c = false ->
  (c =? comma)%N = false /\ (c =? dquote)%N = false
  /\ (c =? cr)%N = false /\ (c =? lf)%N = false.
Proof.
  unfold is_special. rewrite !orb_false_iff. tauto.
Qed.

Lemma run_cons (r : reader) (c : N) (s : str) :
  reader_run r (c :: s)
  = match reader_step r c with
    | (r', Some record) => record :: reader_run r' s
    | (r', None) => reader_run r' s
    end.
Proof. simpl. now destruct (reader_step r c) as [r' [record|]]. Qed.

Lemma step_plain (g : str) (row : list str) (c : N) :
  is_special c = false ->
  reader_step (mkReader InField g row) c = (mkReader InField (g ++ [c]) row, None).
Proof.
  intros Hc. apply not_special in Hc as (Hcomma & _ & Hcr & Hlf).
  simpl. now rewrite Hcomma, Hcr, Hlf.
Qed.

Lemma step_in_quotes (g : str) (row : list str) (c : N) :
  c <> dquote ->
  reader_step (mkReader InQuoted g row) c = (mkReader InQuoted (g ++ [c]) row, None).
Proof. intros Hc. apply N.eqb_neq in Hc. simpl. now rewrite Hc. Qed.

Lemma step_fresh_plain (row : list str) (r : reader) (c : N) :
  fresh row r ->
  is_special c = false ->
  reader_step r c = (mkReader InField [c] row, None).
Proof.
  intros Hfresh Hc. apply not_special in Hc as (Hcomma & Hdq & Hcr & Hlf).
  destruct Hfresh as [->|[-> ->]]; simpl; now rewrite Hcomma, Hdq, Hcr, Hlf.
Qed.

Lemma step_fresh_quote (row : list str) (r : reader) :
  fresh row r -> reader_step r dquote = (mkReader InQuoted [] row, None).
Proof. intros [->|[-> ->]]; reflexivity. Qed.

Lemma run_plain (f g : str) (row : list str) (rest : str) :
  existsb is_special f = false ->
  reader_run (mkReader InField g row) (f ++ rest)
  = reader_run (mkReader InField (g ++ f) row) rest.
Proof.
  revert g. induction f as [|c f IH]; intros g Hplain.
  - now rewrite app_nil_r.
  - simpl in Hplain. apply orb_false_iff in Hplain as [Hc Hf].
    rewrite <- app_comm_cons, run_cons, step_plain by exact Hc.
    rewrite IH by exact Hf. now rewrite <- app_assoc.
Qed.

Lemma run_quoted (f g : str) (row : list str) (rest : str) :
  reader_run (mkReader InQuoted g row) (escape_field f ++ dquote :: rest)
  = reader_run (mkReader QuoteInQuoted (g ++ f) row) rest.
Proof.
  revert g. induction f as [|c f IH]; intros g.
  - rewrite app_nil_r. reflexivity.
  - cbn [escape_field flat_map]. fold (escape_field f).
    destruct (N.eqb_spec c dquote) as [->|Hne].
    + rewrite <- !app_comm_cons, app_nil_l.
      rewrite run_cons. cbn [reader_step N.eqb Pos.eqb dquote].
      rewrite run_cons. cbn [reader_step N.eqb Pos.eqb dquote].
      rewrite IH. now rewrite <- app_assoc.
    + rewrite <- !app_comm_cons, app_nil_l.
      rewrite run_cons, step_in_quotes by exact Hne.
      rewrite IH. now rewrite <- app_assoc.
Qed.

Lemma run_field (alone : bool) (f : str) (row : list str) (r : reader) (rest : str) :
  fresh row r ->
  exists r',
    reader_run r (write_field alone f ++ rest) = reader_run r' rest
    /\ field_read f row r'
    /\ (r_state r' = StartRecord -> alone = false).
Proof.
  intros Hfresh. unfold write_field.
  destruct (existsb is_special f) eqn:Hsp; cbn [orb].
  - exists (mkReader QuoteInQuoted f row). split; [|split; [constructor|discriminate]].
    cbn [app]. rewrite <- app_assoc. cbn [app].
    rewrite run_cons, (step_fresh_quote row) by exact Hfresh.
    now rewrite run_quoted.
  - destruct f as [|c f].
    + destruct alone; cbn [andb].
      * rewrite bool_decide_eq_true_2 by reflexivity.
        exists (mkReader QuoteInQuoted [] row).
        split; [|split; [constructor|discriminate]].
        cbn [app escape_field flat_map].
        rewrite run_cons, (step_fresh_quote row) by exact Hfresh.
        exact (run_quoted [] [] row rest).
      * exists r. split; [reflexivity|]. split; [|reflexivity].
        destruct Hfresh as [->|[-> ->]]; now constructor.
    + replace (alone && bool_decide (c :: f = [])) with false
        by (now rewrite bool_decide_eq_false_2, andb_false_r).
      exists (mkReader InField (c :: f) row).
      split; [|split; [constructor|discriminate]].
      simpl in Hsp. apply orb_false_iff in Hsp as [Hc Hf].
      rewrite <- app_comm_cons, run_cons.
      rewrite (step_fresh_plain row) by assumption.
      now rewrite run_plain.
Qed.

Lemma step_comma (f : str) (row : list str) (r : reader) :
  field_read f row r ->
  reader_step r comma = (mkReader StartField [] (row ++ [f]), None).
Proof. intros Hread. destruct Hread; subst; reflexivity. Qed.

Lemma step_cr (f : str) (row : list str) (r : reader) :
  field_read f row r ->
  r_state r <> StartRecord ->
  reader_step r cr = (mkReader AfterCR [] [], Some (row ++ [f])).
Proof.
  intros Hread Hst. destruct Hread; subst; try reflexivity. now contradict Hst.
Qed.

Lemma join_fields (x : str) (more : list str) :
  join [comma] (x :: more) = x ++ concat (List.map (fun g => comma :: g) more).
Proof.
  revert x. induction more as [|y more IH]; intros x.
  - simpl. now rewrite app_nil_r.
  - change (join [comma] (x :: y :: more)) with (x ++ [comma] ++ join [comma] (y :: more)).
    rewrite IH. reflexivity.
Qed.

(** The fields after the first, each behind its comma, then the line
    terminator. *)
Lemma run_more_fields (more : list str) (f : str) (row : list str)
    (r : reader) (rest : str) :
  field_read f row r ->
  (more = [] -> r_state r <> StartRecord) ->
  reader_run r
    (concat (List.map (fun g => comma :: write_field false g) more)
     ++ cr :: lf :: rest)
  = (row ++ f :: more) :: reader_run reader_init rest.
Proof.
  revert f row r. induction more as [|g more IH]; intros f row r Hread Hst.
  - cbn [List.map concat app].
    rewrite run_cons, (step_cr f row) by auto.
    rewrite run_cons. reflexivity.
  - cbn [List.map concat]. rewrite <- app_assoc, <- app_comm_cons.
    rewrite run_cons, (step_comma f row) by exact Hread.
    destruct (run_field false g (row ++ [f]) (mkReader StartField [] (row ++ [f]))
                (concat (List.map (fun g => comma :: write_field false g) more)
                 ++ cr :: lf :: rest))
      as (r' & Hrun & Hread' & Hst'); [now left|].
    rewrite Hrun. rewrite (IH g (row ++ [f]) r' Hread').
    + now rewrite <- app_assoc.
    + intros _ Hs. destruct Hread'; try discriminate Hs.
      destruct (app_cons_not_nil row [] f). now symmetry.
Qed.

(** A record written and read back. *)
Lemma run_record (cells : list str) (rest : str) :
  reader_run reader_init (write_record cells ++ rest)
  = cells :: reader_run reader_init rest.
Proof.
  unfold write_record. destruct cells as [|f more].
  - reflexivity.
  - set (alone := bool_decide (length (f :: more) = 1%nat)).
    rewrite map_cons, join_fields, map_map.
    rewrite <- !app_assoc.
    destruct (run_field alone f [] reader_init
                (concat (List.map (fun g => comma :: write_field alone g) more)
                 ++ [cr; lf] ++ rest))
      as (r' & Hrun & Hread & Hst); [now right|].
    rewrite Hrun. destruct more as [|g more].
    + cbn [List.map concat app].
      rewrite run_cons, (step_cr f []) by (try assumption; intros Hs; now apply Hst in Hs).
      rewrite run_cons. reflexivity.
    + replace alone with false by (symmetry; now apply bool_decide_eq_false_2).
      apply (run_more_fields (g :: more) f [] r' rest Hread). discriminate.
Qed.

Lemma run_records (records : list (list str)) :
  csv_read (concat (List.map write_record records)) = records.
Proof.
  unfold csv_read. induction records as [|cells records IH].
  - reflexivity.
  - cbn [List.map concat]. rewrite run_record. now rewrite IH.
Qed.

Lemma Z_of_str_of_Z (n : Z) : Z_of_str (str_of_Z n) = Some n.
Proof.
  unfold Z_of_str, str_of_Z. rewrite map_map.
  rewrite (map_ext _ (fun a => a)) by apply ascii_N_embedding.
  rewrite map_id, string_of_list_ascii_of_string.
  pose proof (DecimalZ.of_to n) as Hn.
  destruct (Z.to_int n) as [d|d] eqn:E.
  - destruct d;
      try (rewrite NilZero.isi by discriminate; cbn [option_map]; now rewrite Hn).
    rewrite <- Hn. reflexivity.
  - destruct d;
      try (rewrite NilZero.isi by discriminate; cbn [option_map]; now rewrite Hn).
    rewrite <- Hn. reflexivity.
Qed.

Lemma row_of_cells_of_row (r : OutputRow.t) : row_of_cells (row_cells r) = Some r.
Proof.
  destruct r. unfold row_cells, row_of_cells. cbn [OutputRow.risk_score].
  now rewrite Z_of_str_of_Z.
Qed.

Lemma csv_text_read_back (rows : list OutputRow.t) :
  csv_read (csv_text rows) = fieldnames :: List.map row_cells rows.
Proof.
  unfold csv_text.
  change (write_record fieldnames
          ++ concat (List.map (fun r => write_record (row_cells r)) rows))
    with (concat (write_record fieldnames
                  :: List.map (fun r => write_record (row_cells r)) rows)).
  rewrite <- (map_map row_cells write_record).
  apply (run_records (fieldnames :: List.map row_cells rows)).
Qed.

(** C8: a file written from rows is read back by a standard reader as
    the header record followed by one record per row, holding the nine
    field values of that row; the rows are recovered from them. *)
Theorem csv_round_trip (rows : list OutputRow.t) :
  csv_read (csv_text rows) = fieldnames :: List.map row_cells rows
  /\ List.map row_of_cells (List.map row_cells rows) = List.map Some rows
  /\ Forall (fun cells => length cells = 9%nat) (csv_read (csv_text rows)).
Proof.
  split; [apply csv_text_read_back|]. split.
  - rewrite map_map. apply map_ext. apply row_of_cells_of_row.
  - rewrite csv_text_read_back. constructor; [reflexivity|].
    apply Forall_forall. intros cells Hin.
    apply list_elem_of_In, in_map_iff in Hin as (r & <- & _). reflexivity.
Qed.

(** ** The run *)

Section RunProofs.
Context `{Runtime} `{Network}.

(** After a listing page has been fetched, [main] reports the number of
    links, processes them, and hands the collected rows to the last
    stage. *)
Lemma main_with_listing (limit : Z) (html : str) (tr : list event) :
  http_get tr PERIOD_LIST_URL = Ok html ->
  html <> [] ->
  main limit tr
  = let links := extract_bill_links html limit in
    let '(rows, tr') :=
      process_links links 1 (len links) []
        (tr ++ [EvGet PERIOD_LIST_URL] ++ [EvPrint (MsgFound (len links))]) in
    save_stage rows tr'.
Proof.
  intros Hget Hhtml.
  unfold main, fetch_period_page, get, io_bind, io_ret, print, emit.
  rewrite Hget. destruct html as [|c html]; [contradiction|].
  cbn zeta. rewrite <- app_assoc. reflexivity.
Qed.

(** C6: when the listing page yields no link, the run requests nothing
    but the listing page, writes no file, and ends with the notice that
    nothing was saved. *)
Theorem main_no_links (limit : Z) (html : str) (tr : list event) :
  http_get tr PERIOD_LIST_URL = Ok html ->
  html <> [] ->
  extract_bill_links html limit = [] ->
  main limit tr
  = (tt, tr ++ [EvGet PERIOD_LIST_URL; EvPrint (MsgFound 0);
                EvPrint MsgNothingSaved]).
Proof.
  intros Hget Hhtml Hlinks. rewrite (main_with_listing limit html tr Hget Hhtml).
  rewrite Hlinks. cbn. unfold print, emit. now rewrite <- app_assoc.
Qed.
End RunProofs.

Lemma main_no_links_witness :
  @main (sample_runtime empty_page) (sample_network sample_html) 50 []
  = (tt, [EvGet PERIOD_LIST_URL; EvPrint (MsgFound 0); EvPrint MsgNothingSaved]).
Proof.
  apply (@main_no_links (sample_runtime empty_page) (sample_network sample_html)
           50 sample_html []).
  - reflexivity.
  - discriminate.
  - reflexivity.
Defined.

(** What the last stage adds to the trace. *)
Lemma save_stage_events (rows : list OutputRow.t) (tr : list event) :
  save_stage rows tr
  = (tt, tr ++ match rows with
               | [] => [EvPrint MsgNothingSaved]
               | _ :: _ =>
                   [EvWrite OUTPUT_CSV (csv_text (firstn 500 rows));
                    EvPrint (MsgSaved (len (firstn 500 rows)) OUTPUT_CSV)]
               end)
  /\ (length (firstn 500 rows) <= 500)%nat.
Proof.
  split.
  - destruct rows as [|r rows]; [reflexivity|].
    unfold save_stage, save_rows_to_csv, io_bind, print, emit.
    rewrite slice_to_nonneg by lia. now rewrite <- app_assoc.
  - rewrite length_firstn. lia.
Qed.

(** C7: the last stage writes the first 500 of the collected rows, in
    their order: the file holds the header record and then one record per
    written row, at most 500 of them.  With no row collected nothing is
    written. *)
Theorem save_stage_truncates (rows : list OutputRow.t) (tr : list event) :
  let written := firstn 500 rows in
  save_stage rows tr
  = (tt, tr ++ match rows with
               | [] => [EvPrint MsgNothingSaved]
               | _ :: _ =>
                   [EvWrite OUTPUT_CSV (csv_text written);
                    EvPrint (MsgSaved (len written) OUTPUT_CSV)]
               end)
  /\ (length written <= 500)%nat
  /\ written `prefix_of` rows
  /\ csv_text written
     = write_record fieldnames
       ++ concat (List.map (fun r => write_record (row_cells r)) written)
  /\ csv_read (csv_text written) = fieldnames :: List.map row_cells written.
Proof.
  intros written. destruct (save_stage_events rows tr) as [Hevents Hlen].
  repeat split.
  - exact Hevents.
  - exact Hlen.
  - apply prefix_take.
  - apply csv_text_read_back.
Qed.

(** ** The score on the output of the classifier *)

Lemma sum_lengths_perm (l1 l2 : list (str * list str)) :
  l1 ≡ₚ l2 ->
  foldr Z.add 0 (List.map (fun '(_, lst) => len lst) l1)
  = foldr Z.add 0 (List.map (fun '(_, lst) => len lst) l2).
Proof.
  induction 1 as [|[k v] l1 l2 _ IH|[k1 v1] [k2 v2] l|l1 l2 l3 _ IH1 _ IH2];
    simpl; lia.
Qed.

Lemma sector_map_lookups (la ls lc : list str) :
  let m : gmap str (list str) :=
    list_to_map [(agrarian, la); (social, ls); (corporate, lc)] in
  m !! agrarian = Some la /\ m !! social = Some ls /\ m !! corporate = Some lc.
Proof. repeat split; reflexivity. Qed.

Lemma list_of_set_nil : list_of_set [] = [].
Proof. unfold list_of_set. simpl. apply elements_empty. Qed.

Section ScoreOnClassifier.
Context `{Runtime}.

(** On what the classifier returns, the keywords counted for the matched
    sectors are all the keywords of the map: the sectors that did not
    match have none. *)
Lemma keyword_points_all_sectors (text : str) :
  let '(matched, keywords_map) := analyze_text_for_sectors text in
  keyword_points matched keywords_map
  = foldr Z.add 0
      (List.map (fun '(_, lst) => len lst) (map_to_list keywords_map)).
Proof.
  rewrite analyze_text_for_sectors_hits. cbn zeta.
  set (low := str_lower text). unfold sector_hits, SECTOR_KEYWORDS. cbn [List.map].
  repeat match goal with
         | |- context [hits low ?kws] => generalize (hits low kws)
         end.
  clear low. intros fc fs fa.
  rewrite (sum_lengths_perm _ _
             (map_to_list_to_map
                [(agrarian, list_of_set fa); (social, list_of_set fs);
                 (corporate, list_of_set fc)] sector_keys_nodup)).
  destruct (sector_map_lookups (list_of_set fa) (list_of_set fs) (list_of_set fc))
    as (Ha & Hs & Hc).
  unfold agrarian, social, corporate in Ha, Hs, Hc.
  unfold keyword_points.
  destruct fa as [|a fa], fs as [|s fs], fc as [|c fc];
    repeat (cbn [List.filter List.map fst negb foldr];
            first [ rewrite bool_decide_eq_true_2 by reflexivity
                  | rewrite bool_decide_eq_false_2 by discriminate ]);
    cbn [List.filter List.map fst negb foldr];
    rewrite ?Ha, ?Hs, ?Hc; cbn [default];
    rewrite ?list_of_set_nil; unfold len, id; cbn [length]; lia.
Qed.
End ScoreOnClassifier.

(** ** The model on sample inputs *)

Example split_three :
  split_sentences text_two_sentences = [u "One."; u "Two!"; u "Three?"].
Proof. reflexivity. Qed.

Example split_trailing_space : split_sentences text_trailing_space = [u "Done."; []].
Proof. reflexivity. Qed.

Example summary_two_sentences :
  summarize_text text_two_sentences 300 = u "One. Two!".
Proof. reflexivity. Qed.

Example summary_trailing_space : summarize_text text_trailing_space 300 = u "Done.".
Proof. reflexivity. Qed.

Example summary_cut_to_word :
  summarize_text text_long_words 12 = u "alpha beta...".
Proof. reflexivity. Qed.

Example summary_budget_zero : summarize_text text_long_words 0 = u "...".
Proof. reflexivity. Qed.

Example score_is_capped :
  let R := sample_runtime empty_page in
  compute_risk_score [agrarian; social; corporate]
    (list_to_map [(agrarian, [kw_land; kw_subsidy]); (social, [kw_land; kw_subsidy])])
    (u "Штрафи")
  = 10.
Proof. reflexivity. Qed.

Example score_penalty_only :
  let R := sample_runtime empty_page in
  compute_risk_score [] ∅ (u "САНКЦІЇ") = 3.
Proof. reflexivity. Qed.

Example record_with_comma :
  write_record [cell_with_quote; []; [dquote]]
  = [dquote; 97; 44; 98; dquote; comma; comma;
     dquote; dquote; dquote; dquote; cr; lf]%N.
Proof. reflexivity. Qed.

Example read_record_with_comma :
  csv_read (write_record [cell_with_quote; []; [dquote]])
  = [[cell_with_quote; []; [dquote]]].
Proof. reflexivity. Qed.

Example links_deduplicated :
  uniq_loop [(u "a", u "x"); (u "b", u "y"); (u "c", u "x"); (u "d", u "z")] ∅ [] 2
  = [(u "a", u "x"); (u "b", u "y")].
Proof. vm_compute. reflexivity. Qed.

(** ** What a whole run writes *)

Lemma file_writes_app (tr1 tr2 : list event) :
  file_writes (tr1 ++ tr2) = file_writes tr1 ++ file_writes tr2.
Proof. unfold file_writes. apply flat_map_app. Qed.

Section WholeRun.
Context `{Runtime} `{Network}.

(** With a limit below 1 the extractor returns the first candidate link,
    if there is one. *)
Lemma extract_bill_links_low_limit (html : str) (limit : Z) :
  limit <= 0 ->
  extract_bill_links html limit
  = firstn 1 (candidate_links (soup_anchors (get_soup html))).
Proof. intros Hlow. unfold extract_bill_links. now apply uniq_loop_low_limit. Qed.

(** The loop over the links only extends the trace and the rows, by at
    most one row per link, and writes no file. *)
Lemma process_links_trace (links : list (str * str)) (i n : Z)
    (rows : list OutputRow.t) (tr : list event) :
  exists more new,
    process_links links i n rows tr = (rows ++ more, tr ++ new)
    /\ file_writes new = []
    /\ (length more <= length links)%nat.
Proof.
  revert i rows tr. induction links as [|[title url] links IH]; intros i rows tr.
  - exists [], []. now rewrite !app_nil_r.
  - cbn [process_links].
    unfold fetch_bill_page, get, print, emit, io_bind, io_ret.
    destruct (http_get (tr ++ [EvPrint (MsgProcessing i n title url)]) url)
      as [[|c body]|e].
    + destruct (IH (i + 1) rows
                  ((tr ++ [EvPrint (MsgProcessing i n title url)]) ++ [EvGet url]))
        as (more & new & Heq & Hw & Hlen).
      exists more, ([EvPrint (MsgProcessing i n title url)] ++ [EvGet url] ++ new).
      rewrite Heq, <- !app_assoc. repeat split; [exact Hw|simpl; lia].
    + set (row := build_row (parse_bill (c :: body) url)).
      destruct (IH (i + 1) (rows ++ [row])
                  ((((tr ++ [EvPrint (MsgProcessing i n title url)]) ++ [EvGet url])
                    ++ [EvPrint (MsgSector (OutputRow.sector_main row)
                                   (OutputRow.bill_url row))])
                   ++ [EvSleep]))
        as (more & new & Heq & Hw & Hlen).
      exists (row :: more),
        ([EvPrint (MsgProcessing i n title url)] ++ [EvGet url]
         ++ [EvPrint (MsgSector (OutputRow.sector_main row) (OutputRow.bill_url row))]
         ++ [EvSleep] ++ new).
      rewrite Heq, <- !app_assoc. repeat split; [exact Hw|simpl; lia].
    + destruct (IH (i + 1) rows
                  (((tr ++ [EvPrint (MsgProcessing i n title url)]) ++ [EvGet url])
                   ++ [EvPrint (MsgBillFetchError url e)]))
        as (more & new & Heq & Hw & Hlen).
      exists more,
        ([EvPrint (MsgProcessing i n title url)] ++ [EvGet url]
         ++ [EvPrint (MsgBillFetchError url e)] ++ new).
      rewrite Heq, <- !app_assoc. repeat split; [exact Hw|simpl; lia].
Qed.

(** A run writes no file, or writes the output file once, with the
    header and at most 500 rows. *)
Lemma main_file_writes (limit : Z) (tr : list event) :
  exists new,
    main limit tr = (tt, tr ++ new)
    /\ (file_writes new = []
        \/ exists rows,
             (length rows <= 500)%nat
             /\ file_writes new = [(OUTPUT_CSV, csv_text rows)]
             /\ csv_read (csv_text rows) = fieldnames :: List.map row_cells rows).
Proof.
  destruct (http_get tr PERIOD_LIST_URL) as [[|c html]|e] eqn:Hget.
  - exists [EvGet PERIOD_LIST_URL; EvPrint MsgNoListHtml]. split; [|now left].
    unfold main, fetch_period_page, get, io_bind, io_ret, print, emit.
    rewrite Hget. now rewrite <- app_assoc.
  - rewrite (main_with_listing limit (c :: html) tr Hget) by discriminate.
    cbn zeta. set (links := extract_bill_links (c :: html) limit).
    destruct (process_links_trace links 1 (len links) []
                (tr ++ [EvGet PERIOD_LIST_URL] ++ [EvPrint (MsgFound (len links))]))
      as (rows & new & Heq & Hw & _).
    rewrite Heq. cbn [app].
    destruct (save_stage_events rows
                ((tr ++ [EvGet PERIOD_LIST_URL; EvPrint (MsgFound (len links))]) ++ new))
      as [Hsave _].
    rewrite Hsave. eexists. rewrite <- !app_assoc. split; [reflexivity|].
    rewrite !file_writes_app, Hw.
    destruct rows as [|r rows]; [now left|right].
    exists (firstn 500 (r :: rows)). repeat split.
    + rewrite length_firstn. lia.
    + apply csv_text_read_back.
  - exists [EvGet PERIOD_LIST_URL; EvPrint (MsgListFetchError e); EvPrint MsgNoListHtml].
    split; [|now left].
    unfold main, fetch_period_page, get, io_bind, io_ret, print, emit.
    rewrite Hget. now rewrite <- !app_assoc.
Qed.
End WholeRun.

(** * Further properties of the code *)

(** ** Link extractor: what is kept, and where it comes from *)

Section LinkFacts.
Context `{Runtime}.

(** The first loop is a filter followed by a map. *)
Lemma candidate_links_filter (anchors : list (str * str)) :
  candidate_links anchors
  = List.map (fun '(href, text) => (str_or text no_title, urljoin BASE_PORTAL href))
      (List.filter (fun '(href, _) => is_bill_href href) anchors).
Proof.
  unfold candidate_links.
  assert (Hgen : forall acc,
    fold_left
      (fun links '(href, text) =>
         if is_bill_href href
         then links ++ [(str_or text no_title, urljoin BASE_PORTAL href)]
         else links) anchors acc
    = acc ++ List.map
               (fun '(href, text) => (str_or text no_title, urljoin BASE_PORTAL href))
               (List.filter (fun '(href, _) => is_bill_href href) anchors)).
  { induction anchors as [|[href text] anchors IH]; intros acc; simpl.
    - now rewrite app_nil_r.
    - rewrite IH. destruct (is_bill_href href); [|reflexivity].
      simpl. now rewrite <- app_assoc. }
  apply (Hgen []).
Qed.

Lemma extract_bill_links_sublist (html : str) (limit : Z) :
  sublist (extract_bill_links html limit)
    (candidate_links (soup_anchors (get_soup html))).
Proof. apply (extract_bill_links_nodup html limit). Qed.



(** X3: every entry returned, whatever the limit, comes from an anchor of
    the page whose href passes the bill test: its URL is that href
    resolved against the portal, its title is the anchor text, or
    "No title" when the text is empty; no title is empty. *)
Theorem extract_bill_links_provenance (html : str) (limit : Z) (t l : str) :
  (t, l) ∈ extract_bill_links html limit ->
  t <> []
  /\ exists href text,
       (href, text) ∈ soup_anchors (get_soup html)
       /\ is_bill_href href = true
       /\ l = urljoin BASE_PORTAL href
       /\ t = str_or text no_title.
Proof.
  intros Hin.
  apply (fun Hin => elem_of_sublist _ _ _ Hin (extract_bill_links_sublist html limit))
    in Hin.
  rewrite candidate_links_filter in Hin.
  apply list_elem_of_In, in_map_iff in Hin as ([href text] & Heq & Hin).
  apply filter_In in Hin as [Hin Hbill]. injection Heq as <- <-.
  split.
  - destruct text; discriminate.
  - exists href, text. repeat split; [now apply list_elem_of_In|exact Hbill].
Qed.

End LinkFacts.



Lemma extract_bill_links_provenance_witness :
  (u "Bill 1", u "https://itd.rada.gov.ua/billInfo/Bills/Card/1")
    ∈ @extract_bill_links (sample_runtime listing_page) [] 2
  /\ u "Bill 1" <> [].
Proof.
  assert (Hin : (u "Bill 1", u "https://itd.rada.gov.ua/billInfo/Bills/Card/1")
                  ∈ @extract_bill_links (sample_runtime listing_page) [] 2).
  { vm_compute. left. }
  split; [exact Hin|].
  apply (@extract_bill_links_provenance (sample_runtime listing_page) [] 2 _ _ Hin).
Defined.


(** ** Bill parser *)

Section ParserFacts.
Context `{Runtime}.

Lemma match_atoms_sound (p : list atom) (s m : str) :
  match_atoms p s = Some m ->
  Forall2 (fun a c => atom_matches a c = true) p m /\ exists rest, s = m ++ rest.
Proof.
  revert s m. induction p as [|a p IH]; intros s m Hm.
  - injection Hm as <-. split; [constructor|now exists s].
  - destruct s as [|c s]; [discriminate|]. simpl in Hm.
    destruct (atom_matches a c) eqn:Ha; [|discriminate].
    destruct (match_atoms p s) as [m'|] eqn:Hm'; [|discriminate].
    injection Hm as <-. destruct (IH s m' Hm') as (Hall & rest & ->).
    split; [now constructor|now exists rest].
Qed.

Lemma match_atoms_complete (p : list atom) (m rest : str) :
  Forall2 (fun a c => atom_matches a c = true) p m ->
  match_atoms p (m ++ rest) = Some m.
Proof.
  induction 1 as [|a c p m Ha _ IH]; simpl.
  - now destruct rest.
  - now rewrite Ha, IH.
Qed.

Lemma first_alternative_sound (alts : list (list atom)) (s m : str) :
  first_alternative alts s = Some m ->
  exists p, p ∈ alts /\ match_atoms p s = Some m.
Proof.
  induction alts as [|p alts IH]; [discriminate|]. simpl.
  destruct (match_atoms p s) as [m'|] eqn:Hp.
  - intros [= <-]. exists p. split; [left|exact Hp].
  - intros Hm. destruct (IH Hm) as (q & Hq & Hmq). exists q. split; [now right|exact Hmq].
Qed.

Lemma first_alternative_none (alts : list (list atom)) (s : str) (p : list atom) :
  first_alternative alts s = None -> p ∈ alts -> match_atoms p s = None.
Proof.
  induction alts as [|q alts IH]; intros Hnone Hin.
  - now apply elem_of_nil in Hin.
  - simpl in Hnone. destruct (match_atoms q s) eqn:Hq; [discriminate|].
    apply elem_of_cons in Hin as [->|Hin]; [exact Hq|now apply IH].
Qed.

(** The search returns the leftmost match; it fails only when no part of
    the text matches. *)
Lemma re_search_atoms_spec (alts : list (list atom)) (s : str) :
  match re_search_atoms alts s with
  | Some m =>
      exists p pre post,
        p ∈ alts /\ Forall2 (fun a c => atom_matches a c = true) p m
        /\ s = pre ++ m ++ post
        /\ forall q pre' m' post',
             q ∈ alts -> Forall2 (fun a c => atom_matches a c = true) q m' ->
             s = pre' ++ m' ++ post' -> (length pre <= length pre')%nat
  | None =>
      forall q pre' m' post',
        q ∈ alts -> Forall2 (fun a c => atom_matches a c = true) q m' ->
        s = pre' ++ m' ++ post' -> False
  end.
Proof.
  induction s as [|c s IH].
  - simpl. destruct (first_alternative alts []) as [m|] eqn:Hf.
    + destruct (first_alternative_sound _ _ _ Hf) as (p & Hp & Hm).
      destruct (match_atoms_sound _ _ _ Hm) as (Hall & post & Heq).
      exists p, [], post. repeat split; try assumption. intros. simpl. lia.
    + intros q pre' m' post' Hq Hall Heq.
      destruct pre' as [|x pre']; [|discriminate Heq]. simpl in Heq.
      pose proof (first_alternative_none _ _ q Hf Hq) as Hnone.
      rewrite Heq, (match_atoms_complete q m' post' Hall) in Hnone. discriminate.
  - cbn [re_search_atoms]. destruct (first_alternative alts (c :: s)) as [m|] eqn:Hf.
    + destruct (first_alternative_sound _ _ _ Hf) as (p & Hp & Hm).
      destruct (match_atoms_sound _ _ _ Hm) as (Hall & post & Heq).
      exists p, [], post. repeat split; try assumption. intros. simpl. lia.
    + assert (Hhere : forall q m' post',
                q ∈ alts -> Forall2 (fun a c => atom_matches a c = true) q m' ->
                c :: s = m' ++ post' -> False).
      { intros q m' post' Hq Hall Heq.
        pose proof (first_alternative_none _ _ q Hf Hq) as Hnone.
        rewrite Heq, (match_atoms_complete q m' post' Hall) in Hnone. discriminate. }
      destruct (re_search_atoms alts s) as [m|].
      * destruct IH as (p & pre & post & Hp & Hall & -> & Hleft).
        exists p, (c :: pre), post. repeat split; try assumption.
        intros q pre' m' post' Hq Hall' Heq.
        destruct pre' as [|x pre'].
        -- exfalso. exact (Hhere q m' post' Hq Hall' Heq).
        -- injection Heq as _ Heq. simpl.
           specialize (Hleft q pre' m' post' Hq Hall' Heq). lia.
      * intros q pre' m' post' Hq Hall Heq.
        destruct pre' as [|x pre'].
        -- exact (Hhere q m' post' Hq Hall Heq).
        -- injection Heq as _ Heq. exact (IH q pre' m' post' Hq Hall Heq).
Qed.

Lemma is_date_length (m : str) : is_date m -> length m = 10%nat.
Proof.
  intros (p & Hp & Hall). apply Forall2_length in Hall. rewrite <- Hall.
  unfold date_patterns in Hp. cbn zeta in Hp.
  apply elem_of_cons in Hp as [->|Hp]; [reflexivity|].
  apply elem_of_cons in Hp as [->|Hp]; [reflexivity|].
  now apply elem_of_nil in Hp.
Qed.

(** The scan for the longest block, started with [acc]: either nothing
    beats [acc], or the result is the first block of maximal length. *)
Lemma longest_spec (divs : list str) (acc : str) :
  let longest :=
    fold_left (fun longest t => if len t >? len longest then t else longest)
      divs acc in
  Forall (fun d => len d <= len longest) divs
  /\ ((longest = acc /\ Forall (fun d => len d <= len acc) divs)
      \/ exists before after,
           divs = before ++ longest :: after
           /\ Forall (fun d => len d < len longest) before
           /\ len acc < len longest).
Proof.
  revert acc. induction divs as [|d divs IH]; intros acc; cbn zeta; simpl.
  - split; [constructor|]. left. split; [reflexivity|constructor].
  - destruct (Z.gtb_spec (len d) (len acc)) as [Hgt|Hle].
    + destruct (IH d) as (Hall & Hwhere). cbn zeta in Hall, Hwhere.
      set (l := fold_left _ divs d) in *.
      destruct Hwhere as [[Heq Hle]|(before & after & Hdivs & Hbefore & Hlt)].
      * split; [constructor; [rewrite Heq; lia|exact Hall]|]. right.
        exists [], divs. rewrite Heq. repeat split; [constructor|lia].
      * split; [constructor; [lia|exact Hall]|]. right.
        exists (d :: before), after. rewrite Hdivs. repeat split; [|lia].
        constructor; [lia|exact Hbefore].
    + destruct (IH acc) as (Hall & Hwhere). cbn zeta in Hall, Hwhere.
      set (l := fold_left _ divs acc) in *.
      destruct Hwhere as [[Heq Hle']|(before & after & Hdivs & Hbefore & Hlt)].
      * split; [constructor; [rewrite Heq; lia|exact Hall]|]. left.
        split; [exact Heq|]. constructor; [lia|exact Hle'].
      * split; [constructor; [lia|exact Hall]|]. right.
        exists (d :: before), after. rewrite Hdivs. repeat split; [|lia].
        constructor; [lia|exact Hbefore].
Qed.


(** X6: the published date is the leftmost part of the page text that
    has the shape of a date, ten characters long; it is empty exactly
    when no part of the text has that shape. *)
Theorem parse_bill_date (html url : str) :
  let date := ParsedBill.published_date (parse_bill html url) in
  let text := soup_text (get_soup html) in
  (date = [] /\ forall pre m post, text = pre ++ m ++ post -> ~ is_date m)
  \/ (is_date date /\ length date = 10%nat
      /\ exists pre post,
           text = pre ++ date ++ post
           /\ forall pre' m post',
                text = pre' ++ m ++ post' -> is_date m ->
                (length pre <= length pre')%nat).
Proof.
  cbn zeta. unfold parse_bill. cbn [ParsedBill.published_date].
  pose proof (re_search_atoms_spec date_patterns (soup_text (get_soup html))) as Hs.
  destruct (re_search_atoms date_patterns (soup_text (get_soup html))) as [m|].
  - right. destruct Hs as (p & pre & post & Hp & Hall & Heq & Hleft).
    assert (Hdate : is_date m) by (exists p; now split).
    cbn [default from_option id]. split; [exact Hdate|].
    split; [now apply is_date_length|].
    exists pre, post. split; [exact Heq|].
    intros pre' m' post' Heq' (q & Hq & Hall'). exact (Hleft q pre' m' post' Hq Hall' Heq').
  - left. split; [reflexivity|].
    intros pre m post Heq (q & Hq & Hall). exact (Hs q pre m post Hq Hall Heq).
Qed.

(** X7: the text of the parsed bill is the first 20000 characters of the
    main text: the first block of maximal length when some block is not
    empty, the text of the whole page otherwise. *)
Theorem parse_bill_main_text (html url : str) :
  let divs := soup_divs (get_soup html) in
  exists main,
    ParsedBill.full_text (parse_bill html url) = firstn (Z.to_nat 20000) main
    /\ ((Forall (fun d => d = []) divs /\ main = soup_text (get_soup html))
        \/ exists before after,
             divs = before ++ main :: after
             /\ main <> []
             /\ Forall (fun d => (length d < length main)%nat) before
             /\ Forall (fun d => (length d <= length main)%nat) after).
Proof.
  cbn zeta. unfold parse_bill. cbn [ParsedBill.full_text].
  destruct (longest_spec (soup_divs (get_soup html)) []) as (Hall & Hwhere).
  cbn zeta in Hall, Hwhere. set (l := fold_left _ _ []) in *.
  destruct Hwhere as [[Heq Hempty]|(before & after & Hdivs & Hbefore & Hlt)].
  - exists (soup_text (get_soup html)). rewrite Heq. split.
    + simpl. now rewrite slice_to_nonneg by lia.
    + left. split; [|reflexivity].
      eapply Forall_impl; [exact Hempty|]. intros d Hd.
      destruct d; [reflexivity|]. unfold len in Hd. simpl in Hd. lia.
  - exists l. assert (Hne : l <> []).
    { intros Hl. rewrite Hl in Hlt. unfold len in Hlt. simpl in Hlt. lia. }
    split.
    + destruct l; [contradiction|]. simpl. now rewrite slice_to_nonneg by lia.
    + right. exists before, after. repeat split; try assumption.
      * eapply Forall_impl; [exact Hbefore|]. intros d Hd. unfold len in Hd. lia.
      * rewrite Hdivs in Hall. apply Forall_app in Hall as [_ Hall].
        apply Forall_cons in Hall as [_ Hall].
        eapply Forall_impl; [exact Hall|]. intros d Hd. unfold len in Hd. lia.
Qed.
End ParserFacts.

Example parse_detail_page :
  @parse_bill (sample_runtime detail_page) [] (u "https://itd.rada.gov.ua/b/1")
  = ParsedBill.mk (u "https://itd.rada.gov.ua/b/1")
      (u "Проект Закону про землю") (u "05.11.2024") registered_accepted
      (u "Зареєстровано 05.11.2024").
Proof. vm_compute. reflexivity. Qed.

(** ** Sector classifier: what is matched and what is recorded *)

Lemma table_keywords_nodup :
  Forall (fun '(_, kws) => NoDup kws) SECTOR_KEYWORDS.
Proof.
  repeat constructor; apply (bool_decide_unpack _); vm_compute; exact I.
Qed.

Section ClassifierFacts.
Context `{Runtime}.

Lemma hits_elem (low : str) (kws : list str) (kw : str) :
  kw ∈ hits low kws <-> kw ∈ kws /\ contains (str_lower kw) low = true.
Proof.
  unfold hits. rewrite !list_elem_of_In, filter_In. reflexivity.
Qed.

Lemma hits_nonempty_iff (low : str) (kws : list str) :
  hits low kws <> [] <-> exists kw, kw ∈ kws /\ contains (str_lower kw) low = true.
Proof.
  split.
  - destruct (hits low kws) as [|kw l] eqn:E; [contradiction|]. intros _.
    exists kw. apply hits_elem. rewrite E. left.
  - intros (kw & Hkw) Hnil. apply hits_elem in Hkw. rewrite Hnil in Hkw.
    now apply elem_of_nil in Hkw.
Qed.

(** The matched sectors of a table: those with a hit, in table order. *)
Lemma matched_of_table (table : list (str * list str)) (low : str) :
  let matched :=
    List.map fst
      (List.filter (fun '(_, lst) => negb (bool_decide (lst = [])))
         (sector_hits table low)) in
  sublist matched (List.map fst table)
  /\ forall s,
       s ∈ matched
       <-> exists kws, (s, kws) ∈ table /\ hits low kws <> [].
Proof.
  induction table as [|[s0 kws0] table [IHsub IHmem]]; cbn zeta in *.
  - split; [constructor|]. intros s. split.
    + intros Hin. now apply elem_of_nil in Hin.
    + intros (kws & Hin & _). now apply elem_of_nil in Hin.
  - cbn [sector_hits List.map List.filter].
    fold (sector_hits table low).
    destruct (hits low kws0) as [|kw l] eqn:E.
    + rewrite bool_decide_eq_true_2 by reflexivity. cbn [negb].
      split; [now apply sublist_cons|].
      intros s. rewrite IHmem. split.
      * intros (kws & Hin & Hne). exists kws. split; [now right|exact Hne].
      * intros (kws & Hin & Hne). apply elem_of_cons in Hin as [Heq|Hin].
        -- injection Heq as -> ->. now rewrite E in Hne.
        -- now exists kws.
    + rewrite bool_decide_eq_false_2 by discriminate. cbn [negb List.map fst].
      split; [now apply sublist_skip|].
      intros s. rewrite elem_of_cons, IHmem. split.
      * intros [->|(kws & Hin & Hne)].
        -- exists kws0. split; [left|]. now rewrite E.
        -- exists kws. split; [now right|exact Hne].
      * intros (kws & Hin & Hne). apply elem_of_cons in Hin as [Heq|Hin].
        -- injection Heq as -> ->. now left.
        -- right. now exists kws.
Qed.

(** X8: the matched sectors are sectors of the table, in the order of the
    table and without repetition; a sector is matched exactly when the
    lower-cased text contains the lower-cased form of one of its
    keywords. *)
Theorem analyze_matched_sectors (text : str) :
  let matched := fst (analyze_text_for_sectors text) in
  sublist matched [agrarian; social; corporate]
  /\ NoDup matched
  /\ forall s,
       s ∈ matched
       <-> exists kws kw,
             (s, kws) ∈ SECTOR_KEYWORDS /\ kw ∈ kws
             /\ contains (str_lower kw) (str_lower text) = true.
Proof.
  cbn zeta. rewrite analyze_text_for_sectors_hits. cbn zeta. cbn [fst].
  destruct (matched_of_table SECTOR_KEYWORDS (str_lower text)) as [Hsub Hmem].
  cbn zeta in Hsub, Hmem. split; [exact Hsub|]. split.
  - eapply sublist_NoDup; [apply sector_keys_nodup|exact Hsub].
  - intros s. rewrite Hmem. split.
    + intros (kws & Hin & Hne). apply hits_nonempty_iff in Hne as (kw & Hkw & Hc).
      now exists kws, kw.
    + intros (kws & kw & Hin & Hkw & Hc). exists kws. split; [exact Hin|].
      apply hits_nonempty_iff. now exists kw.
Qed.

(** X9: the keyword map has exactly the sectors of the table as keys; the
    list kept for a sector holds, once each, the keywords of that sector
    whose lower-cased form occurs in the lower-cased text. *)
Theorem analyze_keywords (text : str) :
  let keywords_map := snd (analyze_text_for_sectors text) in
  let low := str_lower text in
  dom keywords_map = list_to_set [agrarian; social; corporate]
  /\ Forall
       (fun '(sector, kws) =>
          exists lst,
            keywords_map !! sector = Some lst
            /\ NoDup lst
            /\ (forall kw,
                  kw ∈ lst <-> kw ∈ kws /\ contains (str_lower kw) low = true)
            /\ length lst = length (hits low kws))
       SECTOR_KEYWORDS.
Proof.
  cbn zeta. rewrite analyze_text_for_sectors_hits. cbn zeta. cbn [snd].
  set (low := str_lower text).
  set (entries := List.map (fun '(s, lst) => (s, list_of_set lst))
                    (sector_hits SECTOR_KEYWORDS low)).
  assert (Hkeys : entries.*1 = List.map fst SECTOR_KEYWORDS)
    by apply keys_of_sector_sets.
  split.
  - rewrite dom_list_to_map_L, Hkeys. reflexivity.
  - apply Forall_forall. intros [sector kws] Hin.
    exists (list_of_set (hits low kws)).
    pose proof table_keywords_nodup as Hnd. rewrite Forall_forall in Hnd.
    specialize (Hnd _ Hin). cbn in Hnd.
    assert (Hhits : NoDup (hits low kws)).
    { unfold hits. apply NoDup_ListNoDup, List.NoDup_filter, NoDup_ListNoDup, Hnd. }
    split; [|split; [|split]].
    + apply elem_of_list_to_map_1.
      * rewrite Hkeys. apply sector_keys_nodup.
      * unfold entries, sector_hits. rewrite map_map.
        apply list_elem_of_In, in_map_iff. exists (sector, kws).
        split; [reflexivity|now apply list_elem_of_In].
    + unfold list_of_set. apply (NoDup_elements (C := gset str)).
    + intros kw. rewrite elem_of_list_of_set. apply hits_elem.
    + unfold list_of_set. now apply (size_list_to_set (C := gset str)).
Qed.
End ClassifierFacts.

(** ** Risk score: when it is zero, and what a penalty word adds *)

Section ScoreFacts.
Context `{Runtime}.

Lemma risk_zero_iff (matched : list str)
    (keywords_map : gmap str (list str)) (text : str) :
  compute_risk_score matched keywords_map text = 0
  <-> matched = [] /\ re_search_ci penalty_stems text = false.
Proof.
  unfold compute_risk_score. rewrite fold_left_plus.
  pose proof (keyword_points_nonneg matched keywords_map) as Hk.
  unfold keyword_points in Hk.
  set (points := foldr Z.add 0 _) in *.
  destruct matched as [|s matched].
  - subst points. simpl. destruct (re_search_ci penalty_stems text); simpl.
    + split; [discriminate|intros [_ ?]; discriminate].
    + split; [now split|reflexivity].
  - assert (Hlen : 1 <= len (s :: matched)) by (unfold len; simpl; lia).
    split; [|intros [? _]; discriminate].
    destruct (re_search_ci penalty_stems text).
    + destruct (Z.gtb_spec (0 + 2 * len (s :: matched) + points + 3) 10); lia.
    + destruct (Z.gtb_spec (0 + 2 * len (s :: matched) + points) 10); lia.
Qed.

(** X10: the score is 0 exactly when no sector is matched and the text
    holds none of the penalty stems. *)
Theorem compute_risk_score_zero (matched : list str)
    (keywords_map : gmap str (list str)) (text : str) :
  compute_risk_score matched keywords_map text = 0
  <-> matched = [] /\ re_search_ci penalty_stems text = false.
Proof. apply risk_zero_iff. Qed.

(** X11: a text that holds a penalty stem scores at least 3, whatever
    the sectors; with no matched sector it scores exactly 3. *)
Theorem compute_risk_score_penalty (matched : list str)
    (keywords_map : gmap str (list str)) (text : str) :
  re_search_ci penalty_stems text = true ->
  3 <= compute_risk_score matched keywords_map text
  /\ compute_risk_score [] keywords_map text = 3.
Proof.
  intros Hpen. unfold compute_risk_score. rewrite fold_left_plus, Hpen.
  pose proof (keyword_points_nonneg matched keywords_map) as Hk.
  unfold keyword_points in Hk. pose proof (len_nonneg matched).
  split; [|reflexivity].
  destruct (Z.gtb_spec (0 + 2 * len matched
                        + foldr Z.add 0
                            (List.map (fun s => len (default [] (keywords_map !! s)))
                               matched) + 3) 10); lia.
Qed.

Lemma ci_starts_with_app (p r s : str) :
  ci_starts_with (p ++ r) s = true -> ci_starts_with p s = true.
Proof.
  revert s. induction p as [|a p IH]; intros s Hs; [now destruct s|].
  destruct s as [|b s]; [discriminate|]. simpl in *.
  apply andb_true_iff in Hs as [Hab Hs]. rewrite Hab. now apply IH.
Qed.

(** An alternative that extends another alternative of the pattern never
    decides a search. *)
Lemma re_search_ci_extension (before after : list str) (p r : str) (s : str) :
  p ∈ before ++ after ->
  re_search_ci (before ++ (p ++ r) :: after) s = re_search_ci (before ++ after) s.
Proof.
  intros Hp. induction s as [|c s IH].
  - cbn [re_search_ci]. rewrite !orb_false_r, !existsb_app. cbn [existsb].
    destruct (ci_starts_with (p ++ r) []) eqn:E; [|reflexivity].
    apply ci_starts_with_app in E.
    assert (Hex : existsb (fun q => ci_starts_with q []) (before ++ after) = true).
    { apply existsb_exists. exists p. split; [now apply list_elem_of_In|exact E]. }
    rewrite existsb_app in Hex. rewrite Hex.
    destruct (existsb _ before); reflexivity.
  - cbn [re_search_ci]. rewrite IH, !existsb_app. cbn [existsb].
    destruct (ci_starts_with (p ++ r) (c :: s)) eqn:E; [|reflexivity].
    apply ci_starts_with_app in E.
    assert (Hex : existsb (fun q => ci_starts_with q (c :: s)) (before ++ after) = true).
    { apply existsb_exists. exists p. split; [now apply list_elem_of_In|exact E]. }
    rewrite existsb_app in Hex. rewrite Hex.
    destruct (existsb _ before); reflexivity.
Qed.

(** X12: the second alternative of the penalty pattern and the second
    alternative of the status pattern extend the first one, so they never
    change the outcome: the penalty test is a search for two stems, and so
    is the status test. *)
Theorem redundant_alternatives (text : str) :
  re_search_ci penalty_stems text
  = re_search_ci [u "штраф"; u "санкц"] text
  /\ re_search_ci status_stems text
     = re_search_ci [u "прийнят"; u "зареєстр"] text.
Proof.
  split.
  - apply (re_search_ci_extension [u "штраф"] [u "санкц"] (u "штраф") (u "и") text).
    left.
  - apply (re_search_ci_extension [u "прийнят"] [u "зареєстр"] (u "прийнят") (u "о") text).
    left.
Qed.
End ScoreFacts.

Lemma compute_risk_score_penalty_witness :
  @re_search_ci (sample_runtime empty_page) penalty_stems (u "Штраф за порушення") = true
  /\ 3 <= @compute_risk_score (sample_runtime empty_page) [agrarian] ∅
            (u "Штраф за порушення").
Proof.
  split; [reflexivity|].
  apply (@compute_risk_score_penalty (sample_runtime empty_page)). reflexivity.
Defined.

(** ** Summariser: edges of the text *)

Lemma split_scan_no_boundary (s : str) (after_term : bool) :
  has_boundary s = false ->
  after_term && starts_with_space s = false ->
  split_scan false after_term s = [s].
Proof.
  revert after_term. induction s as [|c s IH]; intros after_term Hb Ha.
  - reflexivity.
  - assert (Hb' : is_terminator c && starts_with_space s = false
                  /\ has_boundary s = false).
    { destruct s as [|y s]; [split; [apply andb_false_r|reflexivity]|].
      cbn [has_boundary] in Hb. apply orb_false_iff in Hb as [H1 H2].
      split; assumption. }
    destruct Hb' as [Hterm Hrest]. cbn [split_scan starts_with_space] in *.
    destruct (is_space c) eqn:Hc.
    + rewrite andb_true_r in Ha. subst after_term.
      rewrite (IH false) by (try assumption; reflexivity). reflexivity.
    + rewrite (IH (is_terminator c)) by assumption. reflexivity.
Qed.

Lemma lstrip_blank (s : str) : forallb is_space s = true -> lstrip s = [].
Proof.
  induction s as [|c s IH]; [reflexivity|]. simpl.
  intros Hs. apply andb_true_iff in Hs as [Hc Hs]. rewrite Hc. now apply IH.
Qed.

Lemma blank_no_boundary (s : str) : forallb is_space s = true -> has_boundary s = false.
Proof.
  induction s as [|c s IH]; [reflexivity|]. intros Hs.
  simpl in Hs. apply andb_true_iff in Hs as [Hc Hs].
  destruct s as [|y s]; [reflexivity|].
  change (has_boundary (c :: y :: s))
    with ((is_terminator c && is_space y) || has_boundary (y :: s)).
  rewrite (space_not_terminator c Hc), IH by exact Hs. reflexivity.
Qed.

(** The part kept by a truncation is the beginning of the text. *)
Lemma kept_is_prefix (s : str) (max_chars : Z) :
  exists tail, s = rsplit1_head space (slice_to s max_chars) ++ tail.
Proof.
  assert (Hslice : exists tail, s = slice_to s max_chars ++ tail).
  { unfold slice_to. destruct (0 <=? max_chars).
    - exists (skipn (Z.to_nat max_chars) s). now rewrite firstn_skipn.
    - exists (skipn (Z.to_nat (len s + max_chars)) s). now rewrite firstn_skipn. }
  destruct Hslice as (tail & Hs).
  destruct (rsplit1_head_cut (slice_to s max_chars)) as [[_ Hk]|(tail' & Hk & _)].
  - exists tail. now rewrite Hk.
  - exists (space :: tail' ++ tail). rewrite Hs at 1. rewrite Hk at 1.
    now rewrite <- app_assoc.
Qed.

(** X13: a summary never starts and never ends with whitespace, whatever
    the text and the budget. *)
Theorem summarize_text_no_outer_space (text : str) (max_chars : Z) :
  starts_with_space (summarize_text text max_chars) = false
  /\ starts_with_space (rev (summarize_text text max_chars)) = false.
Proof.
  rewrite summarize_text_unfold. cbn zeta.
  set (chosen := strip (first_two (split_sentences text))).
  destruct (strip_spec (first_two (split_sentences text)))
    as (before & after & _ & _ & _ & Hstart & Hend). fold chosen in Hstart, Hend.
  destruct (len chosen >? max_chars); [|now split].
  destruct (kept_is_prefix chosen max_chars) as (tail & Heq).
  set (kept := rsplit1_head space (slice_to chosen max_chars)) in *.
  split.
  - destruct kept as [|c kept]; [reflexivity|].
    rewrite Heq in Hstart. exact Hstart.
  - rewrite rev_app_distr. reflexivity.
Qed.

(** X14: a text without a sentence boundary is its own and only
    sentence; when it fits the budget after stripping, the summary is the
    stripped text. *)
Theorem summarize_text_one_sentence (text : str) (max_chars : Z) :
  has_boundary text = false ->
  len (strip text) <= max_chars ->
  split_sentences text = [text]
  /\ summarize_text text max_chars = strip text.
Proof.
  intros Hb Hfit.
  assert (Hsplit : split_sentences text = [text])
    by now apply split_scan_no_boundary.
  split; [exact Hsplit|].
  rewrite summarize_text_unfold, Hsplit. cbn [first_two]. cbn zeta.
  destruct (Z.gtb_spec (len (strip text)) max_chars); [lia|reflexivity].
Qed.

(** X15: the summary of an empty text, or of a text of whitespace only,
    is empty for every budget that is not negative. *)
Theorem summarize_text_blank (text : str) (max_chars : Z) :
  forallb is_space text = true ->
  0 <= max_chars ->
  summarize_text text max_chars = [].
Proof.
  intros Hblank Hmax.
  assert (Hstrip : strip text = []).
  { unfold strip, rstrip. now rewrite (lstrip_blank text Hblank). }
  assert (Hsplit : split_sentences text = [text]).
  { apply split_scan_no_boundary; [now apply blank_no_boundary|reflexivity]. }
  rewrite summarize_text_unfold, Hsplit. cbn [first_two]. cbn zeta.
  rewrite Hstrip. destruct (Z.gtb_spec (len (@nil N)) max_chars) as [Hgt|]; [|reflexivity].
  unfold len in Hgt. simpl in Hgt. lia.
Qed.

Lemma summarize_text_one_sentence_witness :
  has_boundary text_no_terminator = false
  /\ len (strip text_no_terminator) <= 300
  /\ summarize_text text_no_terminator 300 = u "Law on land".
Proof.
  split; [reflexivity|]. split; [vm_compute; discriminate|].
  destruct (summarize_text_one_sentence text_no_terminator 300) as [_ Heq].
  - reflexivity.
  - vm_compute. discriminate.
  - rewrite Heq. reflexivity.
Defined.

Lemma summarize_text_blank_witness :
  forallb is_space text_blank = true /\ 0 <= 0
  /\ summarize_text text_blank 0 = [].
Proof.
  split; [reflexivity|]. split; [lia|].
  apply (summarize_text_blank text_blank 0); [reflexivity|lia].
Defined.

(** ** Row builder: what every row satisfies *)

Lemma summarize_text_bound (text : str) (max_chars : Z) :
  0 <= max_chars -> len (summarize_text text max_chars) <= max_chars + 3.
Proof.
  intros Hmax. rewrite summarize_text_unfold. cbn zeta.
  set (chosen := strip (first_two (split_sentences text))).
  destruct (Z.gtb_spec (len chosen) max_chars) as [Hover|Hfit]; [|lia].
  pose proof (rsplit1_head_length (slice_to chosen max_chars)) as Hle.
  rewrite slice_to_nonneg in * by assumption.
  rewrite length_firstn in Hle. unfold len. rewrite length_app. simpl. lia.
Qed.

Section RowFacts.
Context `{Runtime}.

Lemma score_bounds (matched : list str) (keywords_map : gmap str (list str))
    (text : str) :
  0 <= compute_risk_score matched keywords_map text <= 10.
Proof.
  unfold compute_risk_score. rewrite fold_left_plus.
  pose proof (len_nonneg matched).
  pose proof (keyword_points_nonneg matched keywords_map) as Hk.
  unfold keyword_points in Hk.
  set (base := 0 + 2 * len matched + _) in *.
  destruct (re_search_ci penalty_stems text).
  - destruct (Z.gtb_spec (base + 3) 10); lia.
  - destruct (Z.gtb_spec base 10); lia.
Qed.

(** The fields of a row in terms of the classification. *)
Lemma build_row_unfold (parsed : ParsedBill.t) :
  let text := ParsedBill.full_text parsed in
  let matched := fst (analyze_text_for_sectors text) in
  let keywords_map := snd (analyze_text_for_sectors text) in
  build_row parsed
  = OutputRow.mk (ParsedBill.url parsed) (ParsedBill.title parsed)
      (ParsedBill.published_date parsed) (ParsedBill.status parsed)
      (join semicolon (List.map (fun s => default s (SECTOR_LABELS !! s)) matched))
      (default label_other
         (SECTOR_LABELS !! match matched with s :: _ => s | [] => other end))
      (join semicolon (sorted (elements (all_keywords keywords_map))))
      (compute_risk_score matched keywords_map text)
      (summarize_text text 300).
Proof.
  cbn zeta. unfold build_row.
  now destruct (analyze_text_for_sectors (ParsedBill.full_text parsed)).
Qed.

Lemma matched_in_table (text : str) (s : str) :
  s ∈ fst (analyze_text_for_sectors text) -> s ∈ [agrarian; social; corporate].
Proof.
  rewrite analyze_text_for_sectors_hits. cbn zeta. cbn [fst]. intros Hs.
  destruct (matched_of_table SECTOR_KEYWORDS (str_lower text)) as [Hsub _].
  cbn zeta in Hsub. exact (elem_of_sublist _ _ _ Hs Hsub).
Qed.

(** The main sector is the label of the first matched sector, and the
    label Інший exactly when no sector is matched. *)
Lemma sector_main_label (parsed : ParsedBill.t) :
  let matched := fst (analyze_text_for_sectors (ParsedBill.full_text parsed)) in
  let main := OutputRow.sector_main (build_row parsed) in
  main ∈ [label_agrarian; label_social; label_corporate; label_other]
  /\ (main = label_other <-> matched = []).
Proof.
  cbn zeta. rewrite build_row_unfold. cbn zeta. cbn [OutputRow.sector_main].
  pose proof (matched_in_table (ParsedBill.full_text parsed)) as Hin.
  destruct (fst (analyze_text_for_sectors (ParsedBill.full_text parsed)))
    as [|s matched].
  - split; [vm_compute; do 3 right; left|]. split; reflexivity.
  - specialize (Hin s (list_elem_of_here _ _)).
    apply elem_of_cons in Hin as [->|Hin]; [|apply elem_of_cons in Hin as [->|Hin];
      [|apply elem_of_cons in Hin as [->|Hin]; [|now apply elem_of_nil in Hin]]].
    + split; [vm_compute; left|]. split; [vm_compute; discriminate|discriminate].
    + split; [vm_compute; right; left|]. split; [vm_compute; discriminate|discriminate].
    + split; [vm_compute; do 2 right; left|].
      split; [vm_compute; discriminate|discriminate].
Qed.

(** X16: a row copies the URL, title, date and status of the parsed
    bill; its score lies between 0 and 10; its summary has at most 303
    characters; its main sector is one of the four labels. *)
Theorem build_row_invariants (parsed : ParsedBill.t) :
  let row := build_row parsed in
  OutputRow.bill_url row = ParsedBill.url parsed
  /\ OutputRow.title row = ParsedBill.title parsed
  /\ OutputRow.published_date row = ParsedBill.published_date parsed
  /\ OutputRow.status row = ParsedBill.status parsed
  /\ 0 <= OutputRow.risk_score row <= 10
  /\ len (OutputRow.summary row) <= 303
  /\ OutputRow.sector_main row
       ∈ [label_agrarian; label_social; label_corporate; label_other].
Proof.
  cbn zeta. destruct (sector_main_label parsed) as [Hmain _]. cbn zeta in Hmain.
  split; [|split; [|split; [|split; [|split; [|split]]]]]; try exact Hmain;
    rewrite build_row_unfold; cbn zeta;
    cbn [OutputRow.bill_url OutputRow.title OutputRow.published_date
         OutputRow.status OutputRow.risk_score OutputRow.summary];
    try reflexivity.
  - apply score_bounds.
  - apply (summarize_text_bound _ 300). lia.
Qed.

(** X17: the score of a row is 0 exactly when its main sector is the
    label Інший and the text of the bill holds none of the penalty
    stems. *)
Theorem build_row_risk_zero (parsed : ParsedBill.t) :
  let row := build_row parsed in
  OutputRow.risk_score row = 0
  <-> OutputRow.sector_main row = label_other
      /\ re_search_ci penalty_stems (ParsedBill.full_text parsed) = false.
Proof.
  cbn zeta. destruct (sector_main_label parsed) as [_ Hother]. cbn zeta in Hother.
  rewrite Hother. rewrite build_row_unfold. cbn zeta. cbn [OutputRow.risk_score].
  apply risk_zero_iff.
Qed.
End RowFacts.

Example build_sample_row :
  @build_row (sample_runtime empty_page) sample_bill
  = OutputRow.mk (u "https://itd.rada.gov.ua/b/1") (u "Про землю") (u "05.11.2024")
      registered_accepted (u "Аграрний;Соціальний") (u "Аграрний")
      (u "земл;субсид;штраф") 10
      (u "Закон про землю та субсидії. Штрафи за порушення.").
Proof. vm_compute. reflexivity. Qed.

(** ** CSV: any records, and what the file determines *)

(** X18: records of any cells, written one after the other and read
    back, come out unchanged: empty records, empty cells, and cells with
    commas, quotes and line breaks included. *)
Theorem csv_records_round_trip (records : list (list str)) :
  csv_read (concat (List.map write_record records)) = records.
Proof. apply run_records. Qed.

Lemma row_cells_inj (r1 r2 : OutputRow.t) : row_cells r1 = row_cells r2 -> r1 = r2.
Proof.
  intros Heq. apply (f_equal row_of_cells) in Heq.
  rewrite !row_of_cells_of_row in Heq. now injection Heq.
Qed.

(** X19: the file determines the rows: two lists of rows with the same
    file text are the same list. *)
Theorem csv_text_inj (rows1 rows2 : list OutputRow.t) :
  csv_text rows1 = csv_text rows2 -> rows1 = rows2.
Proof.
  intros Heq. apply (f_equal csv_read) in Heq.
  rewrite !csv_text_read_back in Heq. injection Heq as Heq.
  apply (f_equal (List.map row_of_cells)) in Heq.
  rewrite !map_map in Heq.
  rewrite !(map_ext _ _ row_of_cells_of_row) in Heq.
  revert rows2 Heq. induction rows1 as [|r1 rows1 IH]; intros [|r2 rows2] Heq;
    try discriminate Heq; [reflexivity|].
  cbn [List.map] in Heq. injection Heq as Hr Hrows.
  rewrite Hr. f_equal. now apply IH.
Qed.

Lemma csv_text_inj_witness :
  csv_text [sample_row] = csv_text [sample_row] /\ [sample_row] = [sample_row].
Proof.
  split; [reflexivity|]. apply (csv_text_inj [sample_row] [sample_row]). reflexivity.
Defined.

Example sample_row_file :
  csv_read (csv_text [sample_row]) = [fieldnames; row_cells sample_row].
Proof. vm_compute. reflexivity. Qed.

(** ** The run: requests, pauses and failures *)

Lemma requests_app (tr1 tr2 : list event) :
  requests (tr1 ++ tr2) = requests tr1 ++ requests tr2.
Proof. unfold requests. apply flat_map_app. Qed.

Lemma pauses_app (tr1 tr2 : list event) :
  pauses (tr1 ++ tr2) = (pauses tr1 + pauses tr2)%nat.
Proof. unfold pauses. now rewrite List.filter_app, length_app. Qed.

Section RunFacts.
Context `{Runtime} `{Network}.

(** One round of the loop: the line for the link, the request, and then
    either the error line, nothing, or the sector line and the pause. *)
Lemma process_links_cons (title url : str) (rest : list (str * str)) (i n : Z)
    (rows : list OutputRow.t) (tr : list event) :
  let tr1 := tr ++ [EvPrint (MsgProcessing i n title url)] in
  process_links ((title, url) :: rest) i n rows tr
  = match http_get tr1 url with
    | Failed e =>
        process_links rest (i + 1) n rows
          (tr ++ [EvPrint (MsgProcessing i n title url); EvGet url;
                  EvPrint (MsgBillFetchError url e)])
    | Ok [] =>
        process_links rest (i + 1) n rows
          (tr ++ [EvPrint (MsgProcessing i n title url); EvGet url])
    | Ok html =>
        let row := build_row (parse_bill html url) in
        process_links rest (i + 1) n (rows ++ [row])
          (tr ++ [EvPrint (MsgProcessing i n title url); EvGet url;
                  EvPrint (MsgSector (OutputRow.sector_main row)
                             (OutputRow.bill_url row));
                  EvSleep])
    end.
Proof.
  cbn zeta. cbn [process_links].
  unfold fetch_bill_page, get, print, emit, io_bind, io_ret.
  destruct (http_get (tr ++ [EvPrint (MsgProcessing i n title url)]) url)
    as [[|c body]|e]; rewrite <- ?app_assoc; reflexivity.
Qed.

(** The loop requests every link once, in order; it adds at most one row
    per link, each built from the page fetched for that link, and pauses
    once per row added; it writes no file. *)
Lemma process_links_events (links : list (str * str)) (i n : Z)
    (rows : list OutputRow.t) (tr : list event) :
  exists more new,
    process_links links i n rows tr = (rows ++ more, tr ++ new)
    /\ requests new = List.map snd links
    /\ pauses new = length more
    /\ (length more <= length links)%nat
    /\ file_writes new = []
    /\ Forall
         (fun row => exists url html,
            url ∈ List.map snd links /\ row = build_row (parse_bill html url))
         more.
Proof.
  revert i rows tr. induction links as [|[title url] links IH]; intros i rows tr.
  - exists [], []. rewrite !app_nil_r. repeat split; [simpl; lia|constructor].
  - rewrite process_links_cons. cbn zeta.
    destruct (http_get (tr ++ [EvPrint (MsgProcessing i n title url)]) url)
      as [[|c body]|e].
    + destruct (IH (i + 1) rows
                  (tr ++ [EvPrint (MsgProcessing i n title url); EvGet url]))
        as (more & new & Heq & Hreq & Hpause & Hlen & Hw & Hrows).
      exists more, ([EvPrint (MsgProcessing i n title url); EvGet url] ++ new).
      rewrite Heq, <- app_assoc. split; [reflexivity|].
      rewrite requests_app, pauses_app, file_writes_app, Hreq, Hpause, Hw.
      repeat split; [simpl; lia|].
      eapply Forall_impl; [exact Hrows|].
      intros row (url' & html & Hin & ->). exists url', html. split; [now right|reflexivity].
    + set (row := build_row (parse_bill (c :: body) url)).
      destruct (IH (i + 1) (rows ++ [row])
                  (tr ++ [EvPrint (MsgProcessing i n title url); EvGet url;
                          EvPrint (MsgSector (OutputRow.sector_main row)
                                     (OutputRow.bill_url row));
                          EvSleep]))
        as (more & new & Heq & Hreq & Hpause & Hlen & Hw & Hrows).
      exists (row :: more),
        ([EvPrint (MsgProcessing i n title url); EvGet url;
          EvPrint (MsgSector (OutputRow.sector_main row) (OutputRow.bill_url row));
          EvSleep] ++ new).
      rewrite Heq, <- !app_assoc. split; [reflexivity|].
      rewrite requests_app, pauses_app, file_writes_app, Hreq, Hpause, Hw.
      repeat split; [simpl; lia|].
      constructor.
      * exists url, (c :: body). split; [left|reflexivity].
      * eapply Forall_impl; [exact Hrows|].
        intros row' (url' & html & Hin & ->). exists url', html.
        split; [now right|reflexivity].
    + destruct (IH (i + 1) rows
                  (tr ++ [EvPrint (MsgProcessing i n title url); EvGet url;
                          EvPrint (MsgBillFetchError url e)]))
        as (more & new & Heq & Hreq & Hpause & Hlen & Hw & Hrows).
      exists more,
        ([EvPrint (MsgProcessing i n title url); EvGet url;
          EvPrint (MsgBillFetchError url e)] ++ new).
      rewrite Heq, <- app_assoc. split; [reflexivity|].
      rewrite requests_app, pauses_app, file_writes_app, Hreq, Hpause, Hw.
      repeat split; [simpl; lia|].
      eapply Forall_impl; [exact Hrows|].
      intros row (url' & html & Hin & ->). exists url', html. split; [now right|reflexivity].
Qed.


(** When no request for a link yields a page, the loop adds no row. *)
Lemma process_links_no_page (links : list (str * str)) (i n : Z)
    (rows : list OutputRow.t) (tr : list event) :
  (forall tr' url, url ∈ List.map snd links -> no_page (http_get tr' url)) ->
  fst (process_links links i n rows tr) = rows
  /\ pauses (snd (process_links links i n rows tr)) = pauses tr.
Proof.
  revert i tr. induction links as [|[title url] links IH]; intros i tr Hfail.
  - split; reflexivity.
  - rewrite process_links_cons. cbn zeta.
    pose proof (Hfail (tr ++ [EvPrint (MsgProcessing i n title url)]) url
                  (list_elem_of_here _ _)) as Hurl.
    assert (Hrest : forall tr' url', url' ∈ List.map snd links ->
                                     no_page (http_get tr' url')).
    { intros tr' url' Hin. apply Hfail. now right. }
    destruct (http_get (tr ++ [EvPrint (MsgProcessing i n title url)]) url)
      as [[|c body]|e]; [|contradiction|].
    + destruct (IH (i + 1)
                  (tr ++ [EvPrint (MsgProcessing i n title url); EvGet url]) Hrest)
        as [Hrows Hp].
      split; [exact Hrows|]. rewrite Hp, pauses_app. unfold pauses. simpl. lia.
    + destruct (IH (i + 1)
                  (tr ++ [EvPrint (MsgProcessing i n title url); EvGet url;
                          EvPrint (MsgBillFetchError url e)]) Hrest)
        as [Hrows Hp].
      split; [exact Hrows|]. rewrite Hp, pauses_app. unfold pauses. simpl. lia.
Qed.

(** X21: when every request for a link fails or yields an empty page,
    the loop skips every link: no row is added and no pause is taken. *)
Theorem process_links_all_fail (links : list (str * str)) (i n : Z)
    (rows : list OutputRow.t) (tr : list event) :
  (forall tr' url, url ∈ List.map snd links -> no_page (http_get tr' url)) ->
  fst (process_links links i n rows tr) = rows
  /\ pauses (snd (process_links links i n rows tr)) = pauses tr.
Proof. apply process_links_no_page. Qed.

(** A run whose request for the listing page yields no page. *)
Lemma main_no_page (limit : Z) (tr : list event) :
  no_page (http_get tr PERIOD_LIST_URL) ->
  main limit tr
  = (tt, tr ++ EvGet PERIOD_LIST_URL
            :: match http_get tr PERIOD_LIST_URL with
               | Failed e => [EvPrint (MsgListFetchError e); EvPrint MsgNoListHtml]
               | Ok _ => [EvPrint MsgNoListHtml]
               end).
Proof.
  intros Hno. unfold main, fetch_period_page, get, print, emit, io_bind, io_ret.
  destruct (http_get tr PERIOD_LIST_URL) as [[|c html]|e]; [|contradiction|];
    rewrite <- ?app_assoc; reflexivity.
Qed.

(** X22: when the listing page cannot be fetched, the run stops after
    the error line and the notice; when it comes back empty, after the
    notice alone.  Nothing else is requested and no file is written. *)
Theorem main_without_listing (limit : Z) (tr : list event) :
  no_page (http_get tr PERIOD_LIST_URL) ->
  main limit tr
  = (tt, tr ++ EvGet PERIOD_LIST_URL
            :: match http_get tr PERIOD_LIST_URL with
               | Failed e => [EvPrint (MsgListFetchError e); EvPrint MsgNoListHtml]
               | Ok _ => [EvPrint MsgNoListHtml]
               end).
Proof. apply main_no_page. Qed.

(** X23: a run requests the listing page first and then only links of
    that page, each at most once; for a limit of at least 1 it makes at
    most [limit] such requests. *)
Theorem main_requests (limit : Z) (tr : list event) :
  exists new urls,
    main limit tr = (tt, tr ++ new)
    /\ requests new = PERIOD_LIST_URL :: urls
    /\ NoDup urls
    /\ (1 <= limit -> len urls <= limit).
Proof.
  destruct (http_get tr PERIOD_LIST_URL) as [[|c html]|e] eqn:Hget.
  - eexists _, []. rewrite main_no_page, Hget by now rewrite Hget.
    repeat split; [constructor|]. unfold len. simpl. lia.
  - rewrite (main_with_listing limit (c :: html) tr Hget) by discriminate.
    cbn zeta. set (links := extract_bill_links (c :: html) limit).
    destruct (process_links_events links 1 (len links) []
                (tr ++ [EvGet PERIOD_LIST_URL] ++ [EvPrint (MsgFound (len links))]))
      as (rows & new & Heq & Hreq & _).
    rewrite Heq. cbn [app].
    destruct (save_stage_events rows
                ((tr ++ [EvGet PERIOD_LIST_URL; EvPrint (MsgFound (len links))]) ++ new))
      as [Hsave _].
    rewrite Hsave. eexists _, (List.map snd links). rewrite <- !app_assoc.
    split; [reflexivity|]. split; [|split].
    + rewrite !requests_app, Hreq. cbn [requests flat_map app].
      destruct rows; simpl; now rewrite app_nil_r.
    + apply (extract_bill_links_nodup (c :: html) limit).
    + intros Hlimit.
      destruct (extract_bill_links_first_seen (c :: html) limit Hlimit)
        as (_ & Hlen & _).
      fold links in Hlen. cbn zeta in Hlen. unfold len in *.
      rewrite length_map. exact Hlen.
  - eexists _, []. rewrite main_no_page, Hget by now rewrite Hget.
    repeat split; [constructor|]. unfold len. simpl. lia.
Qed.

(** X24: a run writes no file, or writes the output file alone and once:
    its text is the header and at most 500 rows, and reads back as such. *)
Theorem main_writes_once (limit : Z) (tr : list event) :
  exists new,
    main limit tr = (tt, tr ++ new)
    /\ (file_writes new = []
        \/ exists rows,
             (length rows <= 500)%nat
             /\ file_writes new = [(OUTPUT_CSV, csv_text rows)]
             /\ csv_read (csv_text rows) = fieldnames :: List.map row_cells rows).
Proof. apply main_file_writes. Qed.
End RunFacts.

Lemma process_links_all_fail_witness :
  @process_links (sample_runtime empty_page) failing_network
    [(u "Bill 1", u "https://itd.rada.gov.ua/b/1")] 1 1 [] []
  = ([], [EvPrint (MsgProcessing 1 1 (u "Bill 1") (u "https://itd.rada.gov.ua/b/1"));
          EvGet (u "https://itd.rada.gov.ua/b/1");
          EvPrint (MsgBillFetchError (u "https://itd.rada.gov.ua/b/1") (u "timeout"))])
  /\ fst (@process_links (sample_runtime empty_page) failing_network
            [(u "Bill 1", u "https://itd.rada.gov.ua/b/1")] 1 1 [] []) = [].
Proof.
  split; [reflexivity|].
  apply (@process_links_all_fail (sample_runtime empty_page) failing_network).
  intros tr' url _. exact I.
Defined.

Lemma main_without_listing_witness :
  @main (sample_runtime empty_page) failing_network 50 []
  = (tt, [EvGet PERIOD_LIST_URL; EvPrint (MsgListFetchError (u "timeout"));
          EvPrint MsgNoListHtml]).
Proof.
  apply (@main_without_listing (sample_runtime empty_page) failing_network 50 []).
  exact I.
Defined.

Example run_with_failing_details :
  @main (sample_runtime one_link_page) listing_only_network 50 []
  = (tt, [EvGet PERIOD_LIST_URL; EvPrint (MsgFound 1);
          EvPrint (MsgProcessing 1 1 (u "Bill 1")
                     (u "https://itd.rada.gov.ua/billInfo/Bills/Card/1"));
          EvGet (u "https://itd.rada.gov.ua/billInfo/Bills/Card/1");
          EvPrint (MsgBillFetchError
                     (u "https://itd.rada.gov.ua/billInfo/Bills/Card/1") (u "timeout"));
          EvPrint MsgNothingSaved]).
Proof. vm_compute. reflexivity. Qed.

(** ** Row builder: the keywords field and the score *)

Lemma str_leb_total (a b : str) : str_leb a b = false -> str_leb b a = true.
Proof.
  revert b. induction a as [|x a IH]; intros [|y b] Hab; try discriminate; [reflexivity|].
  simpl in *. apply orb_false_iff in Hab as [Hlt Hrest].
  apply N.ltb_ge in Hlt.
  destruct (N.eqb_spec x y) as [->|Hne].
  - rewrite N.ltb_irrefl, N.eqb_refl. simpl. now apply IH.
  - assert (Hyx : (y <? x)%N = true) by (apply N.ltb_lt; lia).
    now rewrite Hyx.
Qed.

Lemma insert_sorted_ordered (x : str) (l : list str) :
  ordered l -> ordered (insert_sorted x l).
Proof.
  induction l as [|y l IH]; intros Hl; [exact I|].
  cbn [insert_sorted]. destruct (str_leb x y) eqn:Hxy.
  - split; [exact Hxy|exact Hl].
  - apply str_leb_total in Hxy.
    destruct l as [|z l]; [now split|].
    destruct Hl as [Hyz Hl]. specialize (IH Hl).
    cbn [insert_sorted] in *. destruct (str_leb x z); split; assumption.
Qed.

Lemma sorted_ordered (l : list str) : ordered (sorted l).
Proof.
  induction l as [|x l IH]; [exact I|]. now apply insert_sorted_ordered.
Qed.

Section RowKeywords.
Context `{Runtime}.

(** A set built from hits has as many elements as there are hits: the
    keywords of a sector are distinct. *)
Lemma sum_set_lengths (table : list (str * list str)) (low : str) :
  Forall (fun '(_, kws) => NoDup kws) table ->
  foldr Z.add 0
    (List.map (fun '(_, lst) => len lst)
       (List.map (fun '(s, lst) => (s, list_of_set lst)) (sector_hits table low)))
  = foldr Z.add 0 (List.map (fun '(_, kws) => len (hits low kws)) table).
Proof.
  induction table as [|[s kws] table IH]; intros Hnd; [reflexivity|].
  apply Forall_cons in Hnd as [Hkws Hnd]. cbn [sector_hits List.map foldr].
  fold (sector_hits table low). rewrite IH by exact Hnd. f_equal.
  unfold len, list_of_set. f_equal.
  apply (size_list_to_set (C := gset str)).
  unfold hits. apply NoDup_ListNoDup, List.NoDup_filter, NoDup_ListNoDup, Hkws.
Qed.

(** The keywords counted by the score on the output of the classifier:
    the hits of every sector of the table. *)
Lemma keyword_points_hits (text : str) :
  keyword_points (fst (analyze_text_for_sectors text))
    (snd (analyze_text_for_sectors text))
  = foldr Z.add 0
      (List.map (fun '(_, kws) => len (hits (str_lower text) kws)) SECTOR_KEYWORDS).
Proof.
  pose proof (keyword_points_all_sectors text) as Hall.
  rewrite analyze_text_for_sectors_hits in Hall |- *.
  cbv beta iota zeta in Hall. cbv beta zeta. cbn [fst snd]. rewrite Hall.
  set (low := str_lower text).
  rewrite (sum_lengths_perm _ _
             (map_to_list_to_map
                (List.map (fun '(s, lst) => (s, list_of_set lst))
                   (sector_hits SECTOR_KEYWORDS low))
                (eq_ind_r (fun l => NoDup l) sector_keys_nodup
                   (keys_of_sector_sets SECTOR_KEYWORDS low)))).
  apply sum_set_lengths, table_keywords_nodup.
Qed.

(** X25: the keywords field of a row is the semicolon-joined list of the
    table keywords that occur in the text, each once, in the order of
    their code points. *)
Theorem build_row_keywords (parsed : ParsedBill.t) :
  let low := str_lower (ParsedBill.full_text parsed) in
  exists keywords,
    OutputRow.keywords_found (build_row parsed) = join semicolon keywords
    /\ ordered keywords
    /\ NoDup keywords
    /\ forall kw,
         kw ∈ keywords
         <-> exists sector kws,
               (sector, kws) ∈ SECTOR_KEYWORDS /\ kw ∈ kws
               /\ contains (str_lower kw) low = true.
Proof.
  cbn zeta. rewrite build_row_unfold. cbn zeta. cbn [OutputRow.keywords_found].
  rewrite analyze_text_for_sectors_hits. cbn zeta. cbn [snd].
  set (low := str_lower (ParsedBill.full_text parsed)).
  set (entries := List.map (fun '(s, lst) => (s, list_of_set lst))
                    (sector_hits SECTOR_KEYWORDS low)).
  exists (sorted (elements (all_keywords (list_to_map entries)))).
  split; [reflexivity|]. split; [apply sorted_ordered|]. split.
  - rewrite sorted_perm. apply (NoDup_elements (C := gset str)).
  - intros kw. rewrite sorted_perm, elem_of_elements.
    rewrite elem_of_all_keywords_list
      by (unfold entries; rewrite keys_of_sector_sets; apply sector_keys_nodup).
    split.
    + intros (sector & lst & Hin & Hkw).
      apply list_elem_of_In, in_map_iff in Hin as ([s l] & Heq & Hin).
      injection Heq as Hs Hl. subst sector lst.
      apply (proj1 (elem_of_list_of_set _ _)) in Hkw.
      apply in_map_iff in Hin as ([s' kws] & Heq & Hin).
      injection Heq as Hs Hl. subst s l.
      apply hits_elem in Hkw as [Hkw Hc].
      exists s', kws. repeat split; [now apply list_elem_of_In|exact Hkw|exact Hc].
    + intros (sector & kws & Hin & Hkw & Hc).
      exists sector, (list_of_set (hits low kws)). split.
      * apply list_elem_of_In, in_map_iff. exists (sector, hits low kws).
        split; [reflexivity|]. apply in_map_iff. exists (sector, kws).
        split; [reflexivity|now apply list_elem_of_In].
      * apply elem_of_list_of_set, hits_elem. now split.
Qed.

(** X26: the score of a row is 2 for each matched sector, plus 1 for
    each keyword of each sector of the table that occurs in the text, plus
    3 when the text holds a penalty stem, capped at 10. *)
Theorem build_row_risk_formula (parsed : ParsedBill.t) :
  let text := ParsedBill.full_text parsed in
  let matched := fst (analyze_text_for_sectors text) in
  OutputRow.risk_score (build_row parsed)
  = Z.min 10
      (2 * len matched
       + foldr Z.add 0
           (List.map (fun '(_, kws) => len (hits (str_lower text) kws))
              SECTOR_KEYWORDS)
       + (if re_search_ci penalty_stems text then 3 else 0)).
Proof.
  cbn zeta. rewrite build_row_unfold. cbn zeta. cbn [OutputRow.risk_score].
  rewrite <- keyword_points_hits. unfold compute_risk_score, keyword_points.
  rewrite fold_left_plus.
  set (base := 0 + 2 * len _ + _).
  destruct (re_search_ci penalty_stems (ParsedBill.full_text parsed)).
  - destruct (Z.gtb_spec (base + 3) 10); subst base; lia.
  - destruct (Z.gtb_spec base 10); subst base; lia.
Qed.
End RowKeywords.

(** ** The run: how many rows reach the file *)

Section RunBound.
Context `{Runtime} `{Network}.

End RunBound.

